(** * verify_mcp_references.py: pattern checker and report aggregator

    A shallow embedding of [src/verify_mcp_references.py].  The script
    defines one helper, [check], calls it on five fixed (file, patterns)
    pairs, merges the returned dicts into [results] with [dict.update]
    and prints one line per item.

    Modelling choices, all read off the source:
    - a Python [str] is a sequence of code points ([text], a list of [N]);
      the two glyphs of the source are the code points U+2705 and U+274C;
    - a [dict] keeps insertion order and has unique keys: an association
      list written through [dict_set];
    - an exception aborts the evaluation: the [outcome] error monad;
    - the filesystem under [base_dir] is a function from the relative path
      to what [Path.exists] and [Path.read_text] observe there;
    - [re.search] is the regex engine of the Python library.  The fragment
      of its pattern syntax used by the script (literals, [.], the
      quantifiers, alternation, groups, escaped punctuation) is modelled
      concretely, with a parser and a derivative matcher; an [engine] is
      any search function that agrees with that model on the fragment;
    - standard output is a [stream]: it takes a line or refuses it, and
      [print] raises when it refuses (the encoding of the stream has no
      character for a glyph, the stream is closed); a run is the lines
      printed so far together with the way it ended. *)

From Stdlib Require Import List NArith Bool String Ascii Lia.
Import ListNotations.

Set Implicit Arguments.
Local Open Scope N_scope.
Local Open Scope list_scope.

(** ** Text *)

Definition char := N.
Definition text := list char.

(** The code points of an ASCII literal. *)
Definition str (x : string) : text :=
  map (fun a => N_of_ascii a) (list_ascii_of_string x).
Arguments str x%_string.

Definition text_eqb (a b : text) : bool :=
  if list_eq_dec N.eq_dec a b then true else false.

(** ** Exceptions *)

Inductive exn := ReError | ReadError | EncodeError | WriteError.

Inductive outcome (A : Type) :=
| Returns (a : A)
| Raises (e : exn).
Arguments Raises {A} e.

Definition bind {A B} (m : outcome A) (k : A -> outcome B) : outcome B :=
  match m with
  | Returns a => k a
  | Raises e => Raises e
  end.

Notation "x <- m ;; k" := (bind m (fun x => k))
  (at level 61, m at next level, right associativity).


(** ** The regex fragment *)

Module Re.

Inductive regex :=
| Eps
| Lit (c : char)
| Dot
| Cat (r1 r2 : regex)
| Alt (r1 r2 : regex)
| Star (r : regex).

Definition newline : char := 10.

(** [Dot] is compiled without DOTALL: any character but a newline. *)
Definition dot_matches (c : char) : bool := negb (N.eqb c newline).

(** The language of a regex. *)
Inductive lang : regex -> text -> Prop :=
| L_eps : lang Eps []
| L_lit c : lang (Lit c) [c]
| L_dot c : dot_matches c = true -> lang Dot [c]
| L_cat r1 r2 u v : lang r1 u -> lang r2 v -> lang (Cat r1 r2) (u ++ v)
| L_alt_l r1 r2 u : lang r1 u -> lang (Alt r1 r2) u
| L_alt_r r1 r2 u : lang r2 u -> lang (Alt r1 r2) u
| L_star_nil r : lang (Star r) []
| L_star_cons r u v : lang r u -> lang (Star r) v -> lang (Star r) (u ++ v).

(** The empty regex [Void] is not in the syntax; derivatives need it, so
    the matcher works on [option regex], [None] being the empty language. *)
Fixpoint nullable (r : regex) : bool :=
  match r with
  | Eps => true
  | Lit _ => false
  | Dot => false
  | Cat r1 r2 => nullable r1 && nullable r2
  | Alt r1 r2 => nullable r1 || nullable r2
  | Star _ => true
  end.

Definition ocat (a : option regex) (r : regex) : option regex :=
  match a with
  | Some x => Some (Cat x r)
  | None => None
  end.

Definition oalt (a b : option regex) : option regex :=
  match a, b with
  | Some x, Some y => Some (Alt x y)
  | Some x, None => Some x
  | None, b => b
  end.

Fixpoint deriv (c : char) (r : regex) : option regex :=
  match r with
  | Eps => None
  | Lit d => if N.eqb c d then Some Eps else None
  | Dot => if dot_matches c then Some Eps else None
  | Cat r1 r2 =>
      oalt (ocat (deriv c r1) r2) (if nullable r1 then deriv c r2 else None)
  | Alt r1 r2 => oalt (deriv c r1) (deriv c r2)
  | Star r1 => ocat (deriv c r1) (Star r1)
  end.

(** Does some prefix of [s] belong to the language of [r]? *)
Fixpoint match_prefix (r : regex) (s : text) : bool :=
  nullable r ||
  match s with
  | [] => false
  | c :: s' =>
      match deriv c r with
      | Some r' => match_prefix r' s'
      | None => false
      end
  end.

(** [re.search]: try every start position, left to right. *)
Fixpoint search (r : regex) (s : text) : bool :=
  match_prefix r s ||
  match s with
  | [] => false
  | _ :: s' => search r s'
  end.

(** *** Parsing a pattern

    One pass over the pattern, left to right, with a stack of the groups
    still open.  The result says on which side of the fragment the pattern
    falls: [Parsed r] (the pattern compiles to [r]), [SyntaxError]
    (the library raises [re.error]) or [Beyond] (a construct this model
    does not cover: classes, anchors, counted or stacked repetition,
    group extensions, alphanumeric escapes). *)
Inductive parsed :=
| Parsed (r : regex)
| SyntaxError
| Beyond.

Record frame := Frame {
  branches : option regex;  (* the alternatives closed by a bar so far *)
  items : list regex;       (* the items of the open branch, latest first *)
  repeated : bool           (* the latest item already has a quantifier *)
}.

Definition empty_frame : frame := Frame None [] false.

Definition seq_regex (rs : list regex) : regex := fold_right Cat Eps rs.

Definition close_branch (f : frame) : regex := seq_regex (rev (items f)).

Definition close (f : frame) : regex :=
  match branches f with
  | None => close_branch f
  | Some a => Alt a (close_branch f)
  end.

Definition push (r : regex) (f : frame) : frame :=
  Frame (branches f) (r :: items f) false.

Inductive quantifier := QStar | QPlus | QOpt.

Definition quantify (q : quantifier) (r : regex) : regex :=
  match q with
  | QStar => Star r
  | QPlus => Cat r (Star r)
  | QOpt => Alt r Eps
  end.

Definition is_ascii_alnum (c : char) : bool :=
  ((48 <=? c) && (c <=? 57)) || ((65 <=? c) && (c <=? 90))
  || ((97 <=? c) && (c <=? 122)).

Inductive token :=
| TOpen | TClose | TBar | TDot | TBackslash
| TQuant (q : quantifier)
| TBeyond
| TChar (c : char).

Definition classify (c : char) : token :=
  if c =? 40 then TOpen            (* ( *)
  else if c =? 41 then TClose      (* ) *)
  else if c =? 124 then TBar       (* | *)
  else if c =? 46 then TDot        (* . *)
  else if c =? 92 then TBackslash
  else if c =? 42 then TQuant QStar
  else if c =? 43 then TQuant QPlus
  else if c =? 63 then TQuant QOpt
  else if (c =? 91) || (c =? 123) || (c =? 94) || (c =? 36)
       then TBeyond                (* [ { ^ $ *)
  else TChar c.

Fixpoint parse_go (p : text) (cur : frame) (stack : list frame) : parsed :=
  match p with
  | [] =>
      match stack with
      | [] => Parsed (close cur)
      | _ :: _ => SyntaxError      (* missing ), unterminated subpattern *)
      end
  | c :: rest =>
      match classify c with
      | TOpen =>
          match rest with
          | d :: _ =>
              if d =? 63 then Beyond   (* (?...) extension *)
              else parse_go rest empty_frame (cur :: stack)
          | [] => SyntaxError
          end
      | TClose =>
          match stack with
          | [] => SyntaxError      (* unbalanced parenthesis *)
          | parent :: stack' => parse_go rest (push (close cur) parent) stack'
          end
      | TBar =>
          parse_go rest (Frame (Some (close cur)) [] false) stack
      | TDot => parse_go rest (push Dot cur) stack
      | TBackslash =>
          match rest with
          | [] => SyntaxError      (* bad escape (end of pattern) *)
          | d :: rest' =>
              if is_ascii_alnum d then Beyond
              else parse_go rest' (push (Lit d) cur) stack
          end
      | TQuant q =>
          match items cur with
          | [] => SyntaxError      (* nothing to repeat *)
          | r :: its =>
              if repeated cur then Beyond
              else parse_go rest (Frame (branches cur) (quantify q r :: its) true)
                            stack
          end
      | TBeyond => Beyond
      | TChar c' => parse_go rest (push (Lit c') cur) stack
      end
  end.

Definition parse (p : text) : parsed := parse_go p empty_frame [].

(** A pattern made of ordinary characters only. *)
Definition plain (c : char) : bool :=
  match classify c with
  | TChar _ => true
  | _ => false
  end.

(** The frame after a run of ordinary characters. *)
Definition push_lits (A : text) (f : frame) : frame :=
  fold_left (fun g c => push (Lit c) g) A f.

(** What a pattern [A.*B] with ordinary [A] and [B] compiles to. *)
Definition dot_star_regex (A B : text) : regex :=
  seq_regex (map Lit A ++ [Star Dot] ++ map Lit B).

(** The language of a derivative. *)
Definition olang (o : option regex) (w : text) : Prop :=
  match o with
  | Some r => lang r w
  | None => False
  end.

(** Does the pattern compile in the fragment? *)
Definition compiles (p : text) : bool :=
  match parse p with
  | Parsed _ => true
  | _ => false
  end.

End Re.

(** ** The regex engine

    [re_search p s] is [re.search(p, s)] seen through its truth value:
    [Returns true] for a match object, [Returns false] for [None], [Raises]
    when the library raises.  An engine is bound to the model above on
    the patterns the model covers and free on the others. *)
Record engine := Engine {
  re_search : text -> text -> outcome bool;
  re_search_parsed : forall p r s,
    Re.parse p = Re.Parsed r -> re_search p s = Returns (Re.search r s);
  re_search_error : forall p s,
    Re.parse p = Re.SyntaxError -> re_search p s = Raises ReError
}.

(** The engine that implements the fragment and nothing else. *)
Definition fragment_search (p s : text) : outcome bool :=
  match Re.parse p with
  | Re.Parsed r => Returns (Re.search r s)
  | Re.SyntaxError => Raises ReError
  | Re.Beyond => Raises ReError
  end.

Definition fragment_engine : engine.
Proof.
  refine (@Engine fragment_search _ _);
    unfold fragment_search; intros; match goal with H : _ = _ |- _ => now rewrite H end.
Defined.

(** ** The filesystem under [base_dir] *)

Inductive node :=
| Missing                  (* [path.exists()] is false *)
| Unreadable               (* exists, [path.read_text()] raises *)
| File (content : text).   (* exists, [path.read_text()] returns [content] *)

Definition filesystem := text -> node.

(** ** Dicts *)

Definition dict := list (text * text).

Definition keys (d : dict) : list text := map fst d.
Definition values (d : dict) : list text := map snd d.

Fixpoint get (k : text) (d : dict) : option text :=
  match d with
  | [] => None
  | (k', v) :: d' => if text_eqb k k' then Some v else get k d'
  end.

(** [d[k] = v]: an existing key keeps its place and takes the new value,
    a new key goes to the end. *)
Fixpoint dict_set (k v : text) (d : dict) : dict :=
  match d with
  | [] => [(k, v)]
  | (k', v') :: d' =>
      if text_eqb k k' then (k', v) :: d' else (k', v') :: dict_set k v d'
  end.

(** [d.update(other)]: the items of [other], in its order, written to [d]. *)
Definition update (d other : dict) : dict :=
  fold_left (fun acc kv => dict_set (fst kv) (snd kv) acc) other d.

(** ** The script *)

Definition pass_glyph : text := [9989].     (* U+2705 *)
Definition fail_glyph : text := [10060].    (* U+274C *)
Definition file_missing : text := fail_glyph ++ str " FILE MISSING".

Definition glyph (found : bool) : text :=
  if found then pass_glyph else fail_glyph.

Section Script.

Variable E : engine.
Variable fs : filesystem.

(** The dict comprehension of [check]: the patterns in order, each one
    searched in [content] and written to the dict under construction. *)
Fixpoint comprehension (content : text) (patterns : list text) (acc : dict)
  : outcome dict :=
  match patterns with
  | [] => Returns acc
  | pattern :: rest =>
      found <- re_search E pattern content ;;
      comprehension content rest (dict_set pattern (glyph found) acc)
  end.

Definition check (file : text) (patterns : list text) : outcome dict :=
  match fs file with
  | Missing => Returns [(file, file_missing)]
  | Unreadable => Raises ReadError
  | File content => comprehension content patterns []
  end.

(** One [results.update(check(file, patterns))] statement. *)
Definition update_check (results : dict) (entry : text * list text)
  : outcome dict :=
  r <- check (fst entry) (snd entry) ;;
  Returns (update results r).

(** The statements of the module body, one per manifest entry. *)
Fixpoint run_manifest (entries : list (text * list text)) (results : dict)
  : outcome dict :=
  match entries with
  | [] => Returns results
  | entry :: rest =>
      results' <- update_check results entry ;;
      run_manifest rest results'
  end.

Definition format_line (kv : text * text) : text :=
  fst kv ++ str ": " ++ snd kv.

End Script.

Definition manifest : list (text * list text) :=
  [ (str "docker-compose.yml",
      [ str "volumes:.*mcp_config.db"; str "command:.*dev";
        str "certbot/certbot"; str "9229" ]);
    (str "nginx.conf",
      [ str "listen 443 ssl"; str "certbot";
        str "proxy_pass http://app:3000" ]);
    (str ".env.example",
      [ str "NODE_ENV"; str "PORT"; str "MCP_DB_PATH"; str "DEBUG_MODE" ]);
    (str "src/lib/mcp/config.ts",
      [ str "sqlite3"; str "MCP_COOKIE_KEY" ]);
    (str "src/app/api/mcp/config/route.ts",
      [ str "session_id"; str "INSERT OR REPLACE" ]) ].

(** [results] once the five statements have run. *)
Definition results (E : engine) (fs : filesystem) : outcome dict :=
  run_manifest E fs manifest [].

(** ** Standard output

    [out written line] is what [print(line)] does on [sys.stdout] once the
    lines [written] are out: [None] when the line goes out, [Some e] when
    the stream refuses it and [print] raises [e]. *)
Definition stream := list text -> text -> option exn.

(** A stream that is open and refuses only what its encoding cannot
    represent; [enc] tells which code points it has.  The line terminator
    is ASCII and every encoding has it. *)
Definition encoding_stream (enc : char -> bool) : stream :=
  fun _ line => if forallb enc line then None else Some EncodeError.


(** A stream that is closed: every [print] raises. *)
Definition closed_stream : stream := fun _ _ => Some WriteError.

(** UTF-8 has every code point but the surrogates. *)
Definition utf8_stream : stream :=
  encoding_stream (fun c => negb ((55296 <=? c) && (c <=? 57343))).

(** The final loop: the items in order, each one formatted and printed;
    the first line the stream refuses ends the loop with the exception,
    the lines before it being out already. *)
Fixpoint print_all (out : stream) (written : list text) (results : dict)
  : list text * outcome unit :=
  match results with
  | [] => (written, Returns tt)
  | kv :: rest =>
      match out written (format_line kv) with
      | None => print_all out (written ++ [format_line kv]) rest
      | Some e => (written, Raises e)
      end
  end.

(** The whole script: the lines written to standard output and the way
    the run ends.  An exception in a statement ends the run before the
    loop, with nothing printed. *)
Definition script (out : stream) (E : engine) (fs : filesystem)
  : list text * outcome unit :=
  match results E fs with
  | Returns r => print_all out [] r
  | Raises e => ([], Raises e)
  end.

(** The stream takes each of the lines when its turn comes. *)
Definition accepts (out : stream) (lines : list text) : Prop :=
  forall pre line post, lines = pre ++ line :: post -> out pre line = None.


(** ** Vocabulary of the statements *)

(** The truth value of a search that returns. *)
Definition found (E : engine) (pattern content : text) : bool :=
  match re_search E pattern content with
  | Returns b => b
  | Raises _ => false
  end.

(** The search for [pattern] in [content] raises nothing. *)
Definition searchable (E : engine) (content pattern : text) : Prop :=
  exists b, re_search E pattern content = Returns b.

(** The items of a dict stored under [k]. *)
Definition entries_for (k : text) (d : dict) : dict :=
  filter (fun kv => text_eqb k (fst kv)) d.

(** The keys an entry can write: its file or its patterns. *)
Definition entry_keys (entry : text * list text) : list text :=
  fst entry :: snd entry.

(** The dict a comprehension builds when no search raises. *)
Definition written (E : engine) (content : text) (patterns : list text)
  (acc : dict) : dict :=
  fold_left (fun a p => dict_set p (glyph (found E p content)) a) patterns acc.




(** [A] occurs in [content] and [B] occurs after it with no newline in
    between. *)
Definition same_line (A B content : text) : Prop :=
  exists u m w, content = u ++ A ++ m ++ B ++ w /\ ~ In Re.newline m.

(** The elements of a list in the order of their first occurrence, each
    one once: the order in which a dict meets its keys. *)
Fixpoint first_occurrences (l : list text) : list text :=
  match l with
  | [] => []
  | x :: l' => x :: filter (fun y => negb (text_eqb x y)) (first_occurrences l')
  end.

(** The three statuses the script writes. *)
Definition is_status (v : text) : Prop :=
  v = pass_glyph \/ v = fail_glyph \/ v = file_missing.

(** Patterns the library rejects, [A] and [B] being patterns that compile
    in the fragment: a quantifier at the start; [A], a closing parenthesis
    and anything; [A] and one more backslash; [A], an opening parenthesis
    and [B], where [B] does not start a group extension. *)
Inductive malformed : text -> Prop :=
| M_quantifier c rest : In c [42; 43; 63] -> malformed (c :: rest)
| M_close A rest : Re.compiles A = true -> malformed (A ++ 41 :: rest)
| M_backslash A : Re.compiles A = true -> malformed (A ++ [92])
| M_open A B :
    Re.compiles A = true -> Re.compiles B = true ->
    (forall B', B <> 63 :: B') ->
    malformed (A ++ 40 :: B).

(** A filesystem given by a table; every path not listed is missing. *)
Fixpoint fs_of (table : list (text * node)) : filesystem :=
  fun path =>
    match table with
    | [] => Missing
    | (p, n) :: rest => if text_eqb path p then n else fs_of rest path
    end.

(** ** Sample inputs *)

Definition sample_nginx : text :=
  str "listen 443 ssl; image certbot/certbot; proxy_pass http://app:3000;".

Definition nginx_patterns : list text :=
  [ str "listen 443 ssl"; str "certbot"; str "proxy_pass http://app:3000" ].

(** A deployment where the proxy configuration and the compose file are
    present and everything else is missing. *)
Definition sample_fs : filesystem :=
  fs_of [ (str "nginx.conf", File sample_nginx);
          (str "docker-compose.yml",
            File (str "volumes: mcp_config.db" ++ [Re.newline]
                  ++ str "ports: 9229")) ].

(** Nothing is deployed. *)
Definition empty_fs : filesystem := fs_of [].

(** [A] on one line, [B] on the next. *)
Definition two_lines : text := str "A" ++ [Re.newline] ++ str "B".

(** Two entries that declare the same pattern. *)
Definition shared_first : text * list text := (str "a.conf", [str "certbot"]).
Definition shared_second : text * list text := (str "b.conf", [str "certbot"]).
Definition shared_fs : filesystem :=
  fs_of [ (str "a.conf", File (str "image: certbot/certbot"));
          (str "b.conf", File (str "image: nginx")) ].

(** The proxy configuration exists and cannot be read. *)
Definition unreadable_fs : filesystem :=
  fs_of [ (str "nginx.conf", Unreadable);
          (str "docker-compose.yml", File (str "ports: 9229")) ].

(** The sample deployment with text added around the proxy configuration. *)
Definition grown_fs : filesystem :=
  fs_of [ (str "nginx.conf",
            File (str "# managed" ++ [Re.newline] ++ sample_nginx
                  ++ [Re.newline] ++ str "# end")) ].

(** * Properties *)

(** ** Text equality *)

Lemma text_eqb_eq (a b : text) : text_eqb a b = true <-> a = b.
Proof.
  unfold text_eqb. destruct (list_eq_dec N.eq_dec a b); split; congruence.
Qed.

Lemma text_eqb_refl (a : text) : text_eqb a a = true.
Proof. now apply text_eqb_eq. Qed.

Lemma text_eqb_neq (a b : text) : text_eqb a b = false <-> a <> b.
Proof.
  unfold text_eqb. destruct (list_eq_dec N.eq_dec a b); split; congruence.
Qed.

(** ** The matcher decides the language *)

Module ReFacts.
Import Re.

Lemma nullable_lang r : nullable r = true <-> lang r [].
Proof.
  induction r; simpl.
  - split; [constructor | trivial].
  - split; [discriminate | inversion 1].
  - split; [discriminate | inversion 1].
  - rewrite andb_true_iff, IHr1, IHr2. split.
    + intros [H1 H2]. change (@nil char) with (@nil char ++ []).
      now constructor.
    + inversion 1 as [| | |? ? u v Hu Hv Heq| | | |]; subst.
      destruct u; [|discriminate]. destruct v; [|discriminate]. now split.
  - rewrite orb_true_iff, IHr1, IHr2. split.
    + intros [H|H]; [now apply L_alt_l | now apply L_alt_r].
    + inversion 1; subst; tauto.
  - split; [constructor | trivial].
Qed.

Lemma olang_ocat a r w :
  olang (ocat a r) w <-> exists u v, w = u ++ v /\ olang a u /\ lang r v.
Proof.
  destruct a as [x|]; simpl.
  - split.
    + inversion 1; subst; eauto.
    + intros (u & v & -> & Hu & Hv). now constructor.
  - split; [tauto | now intros (? & ? & _ & [] & _)].
Qed.

Lemma olang_oalt a b w : olang (oalt a b) w <-> olang a w \/ olang b w.
Proof.
  destruct a as [x|], b as [y|]; simpl; try tauto.
  split.
  - inversion 1; subst; tauto.
  - intros [H|H]; [now apply L_alt_l | now apply L_alt_r].
Qed.

Lemma lang_cat_inv r1 r2 w :
  lang (Cat r1 r2) w -> exists u v, w = u ++ v /\ lang r1 u /\ lang r2 v.
Proof. inversion 1; subst; eauto. Qed.

(** A non-empty word of a star starts with a non-empty word of the body. *)
Lemma lang_star_cons_inv r c w :
  lang (Star r) (c :: w) ->
  exists u v, w = u ++ v /\ lang r (c :: u) /\ lang (Star r) v.
Proof.
  intros H. remember (Star r) as sr eqn:Esr. remember (c :: w) as cw eqn:Ecw.
  revert Esr Ecw.
  induction H as [| | | | | | |r' u v Hu _ Hv IHv]; try discriminate.
  intros Esr Ecw. injection Esr as ->.
  destruct u as [|c' u'].
  - simpl in Ecw. now apply IHv.
  - simpl in Ecw. injection Ecw as -> <-. eauto.
Qed.

Lemma deriv_lang c r : forall w, olang (deriv c r) w <-> lang r (c :: w).
Proof.
  induction r; intros w; simpl.
  - split; [tauto | inversion 1].
  - destruct (N.eqb_spec c c0) as [->|Hne]; simpl.
    + split; inversion 1; subst; constructor.
    + split; [tauto | inversion 1; congruence].
  - destruct (dot_matches c) eqn:Hd; simpl.
    + split; inversion 1; subst; now constructor.
    + split; [tauto | inversion 1; congruence].
  - rewrite olang_oalt, olang_ocat. split.
    + intros [(u & v & -> & Hu & Hv) | H].
      * apply IHr1 in Hu. change (c :: u ++ v) with ((c :: u) ++ v).
        now constructor.
      * destruct (nullable r1) eqn:Hn; [|contradiction].
        apply IHr2 in H. apply nullable_lang in Hn.
        change (c :: w) with ([] ++ c :: w). now constructor.
    + intros H. apply lang_cat_inv in H as (u & v & Heq & Hu & Hv).
      destruct u as [|c' u'].
      * simpl in Heq. subst v. right.
        apply nullable_lang in Hu. rewrite Hu. now apply IHr2.
      * simpl in Heq. injection Heq as <- ->. left.
        exists u', v. repeat split; trivial. now apply IHr1.
  - rewrite olang_oalt, IHr1, IHr2. split.
    + intros [H|H]; [now apply L_alt_l | now apply L_alt_r].
    + inversion 1; subst; tauto.
  - rewrite olang_ocat. split.
    + intros (u & v & -> & Hu & Hv). apply IHr in Hu.
      change (c :: u ++ v) with ((c :: u) ++ v). now constructor.
    + intros H. apply lang_star_cons_inv in H as (u & v & -> & Hu & Hv).
      exists u, v. repeat split; trivial. now apply IHr.
Qed.

Lemma match_prefix_spec s : forall r,
  match_prefix r s = true <-> exists v w, s = v ++ w /\ lang r v.
Proof.
  induction s as [|c s IH]; intros r; simpl; rewrite orb_true_iff.
  - split.
    + intros [H|H]; [|discriminate]. exists [], []. split; trivial.
      now apply nullable_lang.
    + intros (v & w & Heq & Hv). left.
      symmetry in Heq. apply app_eq_nil in Heq as [-> _].
      now apply nullable_lang.
  - split.
    + intros [H|H].
      * exists [], (c :: s). split; trivial. now apply nullable_lang.
      * destruct (deriv c r) as [r'|] eqn:Hd; [|discriminate].
        apply IH in H as (v & w & -> & Hv).
        exists (c :: v), w. split; trivial.
        apply deriv_lang. now rewrite Hd.
    + intros (v & w & Heq & Hv). destruct v as [|c' v'].
      * left. now apply nullable_lang.
      * right. simpl in Heq. injection Heq as <- ->.
        apply deriv_lang in Hv. destruct (deriv c r) as [r'|]; [|contradiction].
        apply IH. eauto.
Qed.

Lemma search_spec r s :
  search r s = true <-> exists u v w, s = u ++ v ++ w /\ lang r v.
Proof.
  induction s as [|c s IH]; cbn [search]; rewrite orb_true_iff, match_prefix_spec.
  - split.
    + intros [(v & w & Heq & Hv)|H]; [|discriminate]. now exists [], v, w.
    + intros (u & v & w & Heq & Hv). left.
      symmetry in Heq. apply app_eq_nil in Heq as [-> Heq]. eauto.
  - rewrite IH. split.
    + intros [(v & w & Heq & Hv)|(u & v & w & -> & Hv)].
      * now exists [], v, w.
      * now exists (c :: u), v, w.
    + intros (u & v & w & Heq & Hv). destruct u as [|c' u'].
      * left. now exists v, w.
      * right. simpl in Heq. injection Heq as <- ->. now exists u', v, w.
Qed.

(** *** Patterns of the form [A.*B] *)

Lemma plain_classify c : plain c = true -> classify c = TChar c.
Proof.
  unfold plain, classify.
  repeat match goal with
         | |- context [if ?b then _ else _] => destruct b; try discriminate
         end.
  trivial.
Qed.

Lemma parse_go_plain A : forall rest cur stack,
  forallb plain A = true ->
  parse_go (A ++ rest) cur stack = parse_go rest (push_lits A cur) stack.
Proof.
  induction A as [|c A IH]; intros rest cur stack HA; simpl in *; trivial.
  apply andb_true_iff in HA as [Hc HA].
  rewrite (plain_classify _ Hc). now apply IH.
Qed.

Lemma push_lits_branches A : forall f, branches (push_lits A f) = branches f.
Proof.
  induction A as [|c A IH]; intros f; simpl; trivial.
  unfold push_lits in IH. now rewrite IH.
Qed.

Lemma push_lits_items A : forall f,
  items (push_lits A f) = rev (map Lit A) ++ items f.
Proof.
  induction A as [|c A IH]; intros f; simpl; trivial.
  unfold push_lits in IH. rewrite IH. simpl. now rewrite <- app_assoc.
Qed.

Lemma parse_dot_star A B :
  forallb plain A = true -> forallb plain B = true ->
  parse (A ++ str ".*" ++ B) = Parsed (dot_star_regex A B).
Proof.
  intros HA HB. unfold parse. rewrite parse_go_plain by assumption.
  change (str ".*" ++ B) with (46 :: 42 :: B).
  cbn [parse_go]. change (classify 46) with TDot. cbv iota.
  change (classify 42) with (TQuant QStar). cbv iota.
  cbn [items push repeated quantify branches].
  rewrite <- (app_nil_r B) at 1. rewrite parse_go_plain by assumption.
  cbn [parse_go]. f_equal. unfold close, close_branch, dot_star_regex.
  rewrite push_lits_branches. cbn [branches].
  rewrite push_lits_branches. cbn [branches].
  rewrite push_lits_items. cbn [items]. rewrite push_lits_items. cbn [items].
  change (branches empty_frame) with (@None regex).
  change (items empty_frame) with (@nil regex). cbv iota.
  rewrite app_nil_r, rev_app_distr, rev_involutive.
  change (rev (Star Dot :: rev (map Lit A)))
    with (rev (rev (map Lit A)) ++ [Star Dot]).
  now rewrite rev_involutive, <- app_assoc.
Qed.

Lemma lang_seq_app rs1 : forall rs2 w,
  lang (seq_regex (rs1 ++ rs2)) w <->
  exists u v, w = u ++ v /\ lang (seq_regex rs1) u /\ lang (seq_regex rs2) v.
Proof.
  induction rs1 as [|r rs1 IH]; intros rs2 w; simpl.
  - split.
    + intros H. exists [], w. repeat split; trivial. constructor.
    + intros (u & v & -> & Hu & Hv). inversion Hu; subst. exact Hv.
  - split.
    + intros H. apply lang_cat_inv in H as (a & b & -> & Ha & Hb).
      apply IH in Hb as (u & v & -> & Hu & Hv).
      exists (a ++ u), v. rewrite app_assoc. repeat split; trivial.
      now constructor.
    + intros (u & v & -> & Hu & Hv).
      apply lang_cat_inv in Hu as (a & b & -> & Ha & Hb).
      rewrite <- app_assoc. constructor; trivial. apply IH. eauto.
Qed.

Lemma lang_seq_lits A : forall w, lang (seq_regex (map Lit A)) w <-> w = A.
Proof.
  induction A as [|c A IH]; intros w; simpl.
  - split; [now inversion 1 | intros ->; constructor].
  - split.
    + intros H. apply lang_cat_inv in H as (a & b & -> & Ha & Hb).
      inversion Ha; subst. apply IH in Hb. now subst.
    + intros ->. change (c :: A) with ([c] ++ A).
      constructor; [constructor | now apply IH].
Qed.

Lemma lang_star_dot m : lang (Star Dot) m <-> ~ In newline m.
Proof.
  split.
  - intros H. remember (Star Dot) as sd eqn:E. revert E.
    induction H as [| | | | | | |r u v Hu _ Hv IHv]; try discriminate.
    + intros _ [].
    + intros E. injection E as ->. inversion Hu as [| |c Hc| | | | |]; subst.
      simpl. intros [Heq|Hin]; [|now apply IHv].
      subst c. discriminate Hc.
  - induction m as [|c m IH]; intros Hn; [constructor|].
    change (c :: m) with ([c] ++ m). constructor.
    + constructor. unfold dot_matches.
      destruct (N.eqb_spec c newline) as [->|]; trivial.
      exfalso. apply Hn. now left.
    + apply IH. intros Hin. apply Hn. now right.
Qed.

Lemma lang_dot_star A B w :
  lang (dot_star_regex A B) w <-> exists m, w = A ++ m ++ B /\ ~ In newline m.
Proof.
  unfold dot_star_regex. rewrite lang_seq_app. split.
  - intros (u & v & -> & Hu & Hv). apply lang_seq_lits in Hu. subst u.
    apply lang_seq_app in Hv as (m & b & -> & Hm & Hb).
    apply lang_seq_lits in Hb. subst b. exists m. split; trivial.
    simpl in Hm. apply lang_cat_inv in Hm as (x & y & -> & Hx & Hy).
    inversion Hy; subst. rewrite app_nil_r. now apply lang_star_dot.
  - intros (m & -> & Hm). exists A, (m ++ B). repeat split.
    + now apply lang_seq_lits.
    + apply lang_seq_app. exists m, B. repeat split.
      * simpl. rewrite <- (app_nil_r m). constructor; [|constructor].
        now apply lang_star_dot.
      * now apply lang_seq_lits.
Qed.

End ReFacts.

(** ** Dicts: lookup, order and uniqueness of keys *)

Section DictFacts.

Lemma get_dict_set_same k v d : get k (dict_set k v d) = Some v.
Proof.
  induction d as [|[k' v'] d IH]; simpl.
  - now rewrite text_eqb_refl.
  - destruct (text_eqb k k') eqn:Hk; simpl; now rewrite Hk.
Qed.

Lemma get_dict_set_other k k' v d :
  k <> k' -> get k (dict_set k' v d) = get k d.
Proof.
  intros Hne. induction d as [|[k1 v1] d IH]; simpl.
  - apply text_eqb_neq in Hne. now rewrite Hne.
  - destruct (text_eqb k' k1) eqn:Hk; simpl.
    + apply text_eqb_eq in Hk. subst k1.
      apply text_eqb_neq in Hne. now rewrite Hne.
    + now rewrite IH.
Qed.

Lemma keys_dict_set_in k v d : In k (keys d) -> keys (dict_set k v d) = keys d.
Proof.
  induction d as [|[k' v'] d IH]; simpl; [tauto|].
  intros Hin. destruct (text_eqb k k') eqn:Hk; simpl; trivial.
  f_equal. apply IH. destruct Hin as [->|]; trivial.
  now rewrite text_eqb_refl in Hk.
Qed.

Lemma dict_set_fresh k v d : ~ In k (keys d) -> dict_set k v d = d ++ [(k, v)].
Proof.
  induction d as [|[k' v'] d IH]; simpl; trivial.
  intros Hn. destruct (text_eqb k k') eqn:Hk.
  - apply text_eqb_eq in Hk. subst k'. tauto.
  - f_equal. apply IH. tauto.
Qed.

Lemma in_keys_dict_set k k' v d :
  In k (keys (dict_set k' v d)) <-> k = k' \/ In k (keys d).
Proof.
  destruct (in_dec (list_eq_dec N.eq_dec) k' (keys d)) as [Hin|Hn].
  - rewrite keys_dict_set_in by assumption. split; [tauto|].
    intros [->|]; trivial.
  - rewrite dict_set_fresh by assumption. unfold keys.
    rewrite map_app, in_app_iff. simpl. intuition.
Qed.

Lemma NoDup_keys_dict_set k v d : NoDup (keys d) -> NoDup (keys (dict_set k v d)).
Proof.
  intros Hd. destruct (in_dec (list_eq_dec N.eq_dec) k (keys d)) as [Hin|Hn].
  - now rewrite keys_dict_set_in.
  - rewrite dict_set_fresh by assumption. unfold keys. rewrite map_app. simpl.
    apply NoDup_app; trivial.
    + constructor; [tauto | constructor].
    + intros x Hx [<-|[]]. tauto.
Qed.

Lemma values_dict_set k v d x :
  In x (values (dict_set k v d)) -> x = v \/ In x (values d).
Proof.
  induction d as [|[k' v'] d IH]; simpl.
  - intros [<-|[]]. now left.
  - destruct (text_eqb k k'); simpl; intros [<-|H]; auto.
    apply IH in H. tauto.
Qed.

Lemma get_in_keys k d : In k (keys d) -> exists v, get k d = Some v.
Proof.
  induction d as [|[k' v'] d IH]; simpl; [tauto|].
  intros Hin. destruct (text_eqb k k') eqn:Hk; eauto.
  apply IH. destruct Hin as [->|]; trivial. now rewrite text_eqb_refl in Hk.
Qed.

Lemma get_none k d : ~ In k (keys d) -> get k d = None.
Proof.
  induction d as [|[k' v'] d IH]; simpl; trivial.
  intros Hn. destruct (text_eqb k k') eqn:Hk.
  - apply text_eqb_eq in Hk. subst k'. tauto.
  - apply IH. tauto.
Qed.

Lemma get_some_in k v d : get k d = Some v -> In (k, v) d.
Proof.
  induction d as [|[k' v'] d IH]; simpl; [discriminate|].
  destruct (text_eqb k k') eqn:Hk.
  - apply text_eqb_eq in Hk. subst k'. intros [= ->]. now left.
  - auto.
Qed.

Lemma entries_for_absent k d : ~ In k (keys d) -> entries_for k d = [].
Proof.
  induction d as [|[k' v'] d IH]; simpl; trivial.
  intros Hn. destruct (text_eqb k k') eqn:Hk.
  - apply text_eqb_eq in Hk. subst k'. tauto.
  - apply IH. tauto.
Qed.

(** With unique keys, a key that is present has exactly one item. *)
Lemma entries_for_unique k v d :
  NoDup (keys d) -> get k d = Some v -> entries_for k d = [(k, v)].
Proof.
  induction d as [|[k' v'] d IH]; simpl; [discriminate|].
  intros Hnd Hget. inversion Hnd as [|? ? Hnotin Hnd']; subst.
  destruct (text_eqb k k') eqn:Hk.
  - apply text_eqb_eq in Hk. subst k'. injection Hget as ->.
    now rewrite entries_for_absent.
  - now apply IH.
Qed.

(** *** [update] *)

Lemma update_cons d k v r : update d ((k, v) :: r) = update (dict_set k v d) r.
Proof. reflexivity. Qed.

Lemma NoDup_keys_update r : forall d, NoDup (keys d) -> NoDup (keys (update d r)).
Proof.
  induction r as [|[k v] r IH]; intros d Hd; trivial.
  rewrite update_cons. apply IH. now apply NoDup_keys_dict_set.
Qed.

Lemma in_keys_update r : forall d k,
  In k (keys (update d r)) <-> In k (keys d) \/ In k (keys r).
Proof.
  induction r as [|[k' v] r IH]; intros d k.
  - simpl. tauto.
  - rewrite update_cons, IH, in_keys_dict_set. simpl. intuition.
Qed.

(** Last write wins: the value of [other] where it has the key, the old
    value elsewhere. *)
Lemma get_update r : forall d k,
  NoDup (keys r) ->
  get k (update d r) = match get k r with Some v => Some v | None => get k d end.
Proof.
  induction r as [|[k' v] r IH]; intros d k Hnd; trivial.
  inversion Hnd as [|? ? Hnotin Hnd']; subst.
  rewrite update_cons, IH by assumption. simpl.
  destruct (text_eqb k k') eqn:Hk.
  - apply text_eqb_eq in Hk. subst k'.
    now rewrite (get_none _ _ Hnotin), get_dict_set_same.
  - apply text_eqb_neq in Hk. now rewrite get_dict_set_other.
Qed.

Lemma values_update r : forall d x,
  In x (values (update d r)) -> In x (values d) \/ In x (values r).
Proof.
  induction r as [|[k v] r IH]; intros d x Hx; [now left|].
  rewrite update_cons in Hx. apply IH in Hx as [Hx|Hx].
  - apply values_dict_set in Hx as [->|]; [right; now left | now left].
  - right. now right.
Qed.


End DictFacts.




(** ** The script, statement by statement *)

Section ScriptFacts.

Variable E : engine.

Lemma found_returns p c b : re_search E p c = Returns b -> found E p c = b.
Proof. unfold found. now intros ->. Qed.

Lemma compiles_searchable p c : Re.compiles p = true -> searchable E c p.
Proof.
  unfold Re.compiles, searchable. destruct (Re.parse p) as [r| |] eqn:Hp;
    try discriminate.
  intros _. exists (Re.search r c). now apply re_search_parsed.
Qed.

(** *** The comprehension *)

Lemma comprehension_returns content patterns : forall acc,
  (forall p, In p patterns -> searchable E content p) ->
  comprehension E content patterns acc = Returns (written E content patterns acc).
Proof.
  induction patterns as [|p ps IH]; intros acc Hs; trivial.
  destruct (Hs p (or_introl eq_refl)) as [b Hb].
  cbn [comprehension]. rewrite Hb. cbn [bind].
  rewrite IH by (intros q Hq; apply Hs; now right).
  unfold written. cbn [fold_left]. now rewrite (found_returns _ _ Hb).
Qed.

Lemma comprehension_raises content patterns : forall acc p e,
  In p patterns -> re_search E p content = Raises e ->
  exists e', comprehension E content patterns acc = Raises e'.
Proof.
  induction patterns as [|q ps IH]; intros acc p e Hin Hr; [destruct Hin|].
  cbn [comprehension]. destruct Hin as [->|Hin].
  - rewrite Hr. cbn [bind]. eauto.
  - destruct (re_search E q content) as [b|e0]; cbn [bind]; eauto.
Qed.

Lemma written_keys content patterns : forall acc k,
  In k (keys (written E content patterns acc)) <-> In k (keys acc) \/ In k patterns.
Proof.
  induction patterns as [|p ps IH]; intros acc k.
  - simpl. tauto.
  - unfold written in *. cbn [fold_left]. rewrite IH, in_keys_dict_set.
    simpl. intuition.
Qed.

Lemma written_NoDup content patterns : forall acc,
  NoDup (keys acc) -> NoDup (keys (written E content patterns acc)).
Proof.
  induction patterns as [|p ps IH]; intros acc Hnd; trivial.
  unfold written in *. cbn [fold_left]. apply IH.
  now apply NoDup_keys_dict_set.
Qed.

Lemma written_get_other content patterns : forall acc k,
  ~ In k patterns -> get k (written E content patterns acc) = get k acc.
Proof.
  induction patterns as [|p ps IH]; intros acc k Hn; trivial.
  unfold written in *. cbn [fold_left]. rewrite IH by (simpl in Hn; tauto).
  apply get_dict_set_other. intros ->. apply Hn. now left.
Qed.

(** Every pattern of the list ends up mapped to the glyph of its own
    search, also when the list repeats it. *)
Lemma written_get content patterns : forall acc p,
  In p patterns ->
  get p (written E content patterns acc) = Some (glyph (found E p content)).
Proof.
  induction patterns as [|q ps IH]; intros acc p Hin; [destruct Hin|].
  destruct (in_dec (list_eq_dec N.eq_dec) p ps) as [Hps|Hps].
  - unfold written in *. cbn [fold_left]. now apply IH.
  - destruct Hin as [->|Hin]; [|contradiction].
    change (written E content (p :: ps) acc)
      with (written E content ps (dict_set p (glyph (found E p content)) acc)).
    rewrite written_get_other by assumption. apply get_dict_set_same.
Qed.

Lemma written_values content patterns : forall acc x,
  In x (values (written E content patterns acc)) ->
  In x (values acc) \/ x = pass_glyph \/ x = fail_glyph.
Proof.
  induction patterns as [|p ps IH]; intros acc x Hx; [now left|].
  unfold written in *. cbn [fold_left] in Hx. apply IH in Hx as [Hx|Hx]; [|tauto].
  apply values_dict_set in Hx as [->|Hx]; [|tauto].
  right. unfold glyph. destruct (found E p content); tauto.
Qed.


End ScriptFacts.

Section RunFacts.

Variable E : engine.
Variable fs : filesystem.

(** *** [check] *)

Lemma check_missing file patterns :
  fs file = Missing -> check E fs file patterns = Returns [(file, file_missing)].
Proof. unfold check. now intros ->. Qed.

Lemma check_file file content patterns :
  fs file = File content ->
  (forall p, In p patterns -> searchable E content p) ->
  check E fs file patterns = Returns (written E content patterns []).
Proof. unfold check. intros -> Hs. now apply comprehension_returns. Qed.

(** Whatever [check] returns is one of the two shapes. *)
Lemma check_inv file patterns r :
  check E fs file patterns = Returns r ->
  (fs file = Missing /\ r = [(file, file_missing)]) \/
  (exists content, fs file = File content /\ r = written E content patterns []
                   /\ forall p, In p patterns -> searchable E content p).
Proof.
  unfold check. destruct (fs file) as [| |content] eqn:Hf; try discriminate.
  - intros [= <-]. now left.
  - intros Hc. right. exists content. split; trivial.
    assert (forall p, In p patterns -> searchable E content p) as Hs.
    { intros p Hp. unfold searchable.
      destruct (re_search E p content) as [b|e] eqn:Hr; eauto.
      destruct (comprehension_raises E content patterns [] p Hp Hr)
        as [e' He'].
      congruence. }
    split; trivial. rewrite comprehension_returns in Hc by assumption.
    congruence.
Qed.

Lemma check_keys file patterns r k :
  check E fs file patterns = Returns r -> In k (keys r) ->
  In k (entry_keys (file, patterns)).
Proof.
  intros Hc Hk. apply check_inv in Hc as [[_ ->]|(c & _ & -> & _)].
  - simpl in *. tauto.
  - apply written_keys in Hk as [[]|Hk]. now right.
Qed.

Lemma check_NoDup file patterns r :
  check E fs file patterns = Returns r -> NoDup (keys r).
Proof.
  intros Hc. apply check_inv in Hc as [[_ ->]|(c & _ & -> & _)].
  - simpl. constructor; [tauto | constructor].
  - apply written_NoDup. constructor.
Qed.

Lemma check_values file patterns r x :
  check E fs file patterns = Returns r -> In x (values r) ->
  x = pass_glyph \/ x = fail_glyph \/ x = file_missing.
Proof.
  intros Hc Hx. apply check_inv in Hc as [[_ ->]|(c & _ & -> & _)].
  - simpl in Hx. destruct Hx as [<-|[]]. tauto.
  - apply written_values in Hx as [[]|Hx]. tauto.
Qed.

(** *** The statements of the module body *)

Lemma run_manifest_app pre : forall post acc,
  run_manifest E fs (pre ++ post) acc
  = (r <- run_manifest E fs pre acc ;; run_manifest E fs post r).
Proof.
  induction pre as [|e pre IH]; intros post acc; trivial.
  cbn [app run_manifest].
  destruct (update_check E fs acc e) as [r|x]; cbn [bind]; trivial.
Qed.

Lemma run_manifest_cons e rest acc r :
  check E fs (fst e) (snd e) = Returns r ->
  run_manifest E fs (e :: rest) acc = run_manifest E fs rest (update acc r).
Proof. intros Hc. cbn [run_manifest]. unfold update_check. now rewrite Hc. Qed.

Lemma run_manifest_cons_inv e rest acc d :
  run_manifest E fs (e :: rest) acc = Returns d ->
  exists r, check E fs (fst e) (snd e) = Returns r /\
            run_manifest E fs rest (update acc r) = Returns d.
Proof.
  cbn [run_manifest]. unfold update_check.
  destruct (check E fs (fst e) (snd e)) as [r|x]; cbn [bind]; [|discriminate].
  eauto.
Qed.

Lemma run_manifest_NoDup entries : forall acc d,
  NoDup (keys acc) -> run_manifest E fs entries acc = Returns d -> NoDup (keys d).
Proof.
  induction entries as [|e rest IH]; intros acc d Hnd Hrun.
  - injection Hrun as <-. exact Hnd.
  - apply run_manifest_cons_inv in Hrun as (r & _ & Hrun).
    eapply IH; [|exact Hrun]. now apply NoDup_keys_update.
Qed.

Lemma run_manifest_values entries : forall acc d x,
  run_manifest E fs entries acc = Returns d -> In x (values d) ->
  In x (values acc) \/ x = pass_glyph \/ x = fail_glyph \/ x = file_missing.
Proof.
  induction entries as [|e rest IH]; intros acc d x Hrun Hx.
  - injection Hrun as <-. now left.
  - apply run_manifest_cons_inv in Hrun as (r & Hc & Hrun).
    destruct (IH _ _ _ Hrun Hx) as [H|H]; [|tauto].
    apply values_update in H as [H|H]; [now left|].
    right. eapply check_values; eassumption.
Qed.

(** Statements that do not write [k] leave its value alone. *)
Lemma run_manifest_get_other entries k : forall acc d,
  (forall e r, In e entries -> check E fs (fst e) (snd e) = Returns r ->
               ~ In k (keys r)) ->
  run_manifest E fs entries acc = Returns d -> get k d = get k acc.
Proof.
  induction entries as [|e rest IH]; intros acc d Hother Hrun.
  - now injection Hrun as <-.
  - apply run_manifest_cons_inv in Hrun as (r & Hc & Hrun).
    rewrite (IH _ _ (fun e' r' H => Hother e' r' (or_intror H)) Hrun).
    rewrite get_update by (eapply check_NoDup; eassumption).
    rewrite (get_none k r); trivial.
    eapply Hother; [now left | exact Hc].
Qed.

(** The value of [k] is the one written by the last statement that
    writes it. *)
Lemma run_manifest_last_write pre e post k v r acc d :
  check E fs (fst e) (snd e) = Returns r -> get k r = Some v ->
  (forall e' r', In e' post -> check E fs (fst e') (snd e') = Returns r' ->
                 ~ In k (keys r')) ->
  run_manifest E fs (pre ++ e :: post) acc = Returns d ->
  get k d = Some v.
Proof.
  intros Hc Hget Hother Hrun. rewrite run_manifest_app in Hrun.
  destruct (run_manifest E fs pre acc) as [mid|x]; cbn [bind] in Hrun;
    [|discriminate].
  rewrite (run_manifest_cons _ _ _ Hc) in Hrun.
  rewrite (run_manifest_get_other _ _ _ Hother Hrun).
  rewrite get_update by (eapply check_NoDup; eassumption).
  now rewrite Hget.
Qed.

(** The run completes when no file is unreadable and no search raises. *)
Lemma run_manifest_returns entries : forall acc,
  (forall e, In e entries -> fs (fst e) <> Unreadable) ->
  (forall e p c, In e entries -> In p (snd e) -> searchable E c p) ->
  exists d, run_manifest E fs entries acc = Returns d.
Proof.
  induction entries as [|e rest IH]; intros acc Hr Hs; [now exists acc|].
  assert (exists r, check E fs (fst e) (snd e) = Returns r) as [r Hc].
  { destruct (fs (fst e)) as [| |content] eqn:Hf.
    - eexists. now apply check_missing.
    - now destruct (Hr e (or_introl eq_refl)).
    - eexists. apply check_file; [exact Hf|].
      intros p Hp. now apply (Hs e p content (or_introl eq_refl)). }
  rewrite (run_manifest_cons _ _ _ Hc). apply IH.
  - intros e' He'. apply Hr. now right.
  - intros e' p c He'. apply Hs. now right.
Qed.





End RunFacts.

(** ** The manifest *)

Lemma glyphs_differ : pass_glyph <> fail_glyph.
Proof. discriminate. Qed.

Lemma manifest_compiles :
  forallb (fun e => forallb Re.compiles (snd e)) manifest = true.
Proof. vm_compute. reflexivity. Qed.


Lemma manifest_searchable E e p c :
  In e manifest -> In p (snd e) -> searchable E c p.
Proof.
  intros He Hp. apply compiles_searchable.
  pose proof manifest_compiles as H. rewrite forallb_forall in H.
  specialize (H e He). rewrite forallb_forall in H. now apply H.
Qed.

Lemma run_manifest_ext E fs1 fs2 entries : forall acc,
  (forall e, In e entries -> fs1 (fst e) = fs2 (fst e)) ->
  run_manifest E fs1 entries acc = run_manifest E fs2 entries acc.
Proof.
  induction entries as [|e rest IH]; intros acc Hfs; trivial.
  cbn [run_manifest]. unfold update_check.
  assert (check E fs1 (fst e) (snd e) = check E fs2 (fst e) (snd e)) as ->.
  { unfold check. now rewrite (Hfs e (or_introl eq_refl)). }
  destruct (check E fs2 (fst e) (snd e)) as [r|x]; cbn [bind]; trivial.
  apply IH. intros e' He'. apply Hfs. now right.
Qed.



(** ** Printing *)

Lemma print_all_accepted out r : forall w,
  (forall pre line post,
     map format_line r = pre ++ line :: post -> out (w ++ pre) line = None) ->
  print_all out w r = (w ++ map format_line r, Returns tt).
Proof.
  induction r as [|kv r IH]; intros w H; cbn [print_all map].
  - now rewrite app_nil_r.
  - assert (out w (format_line kv) = None) as ->.
    { rewrite <- (app_nil_r w).
      now apply (H [] (format_line kv) (map format_line r)). }
    rewrite IH.
    + now rewrite <- app_assoc.
    + intros pre line post Heq. rewrite <- app_assoc.
      apply (H (format_line kv :: pre) line post). cbn [map app].
      now rewrite Heq.
Qed.


(** When the loop raises, the stream refused the next line of the report. *)
Lemma print_all_raises_inv out r : forall w w' x,
  print_all out w r = (w', Raises x) ->
  exists pre line post,
    map format_line r = pre ++ line :: post /\
    out (w ++ pre) line = Some x /\ w' = w ++ pre.
Proof.
  induction r as [|kv r IH]; intros w w' x H; cbn [print_all map] in *.
  - discriminate.
  - destruct (out w (format_line kv)) as [e|] eqn:Hout.
    + injection H as <- <-.
      exists [], (format_line kv), (map format_line r).
      now rewrite app_nil_r.
    + destruct (IH _ _ _ H) as (pre & line & post & Hmap & Hrefuse & ->).
      exists (format_line kv :: pre), line, post.
      rewrite <- !app_assoc in *. cbn [app] in *. now rewrite Hmap.
Qed.


Lemma script_accepted out E fs d :
  results E fs = Returns d -> accepts out (map format_line d) ->
  script out E fs = (map format_line d, Returns tt).
Proof.
  intros Hd Hacc. unfold script. rewrite Hd.
  apply (print_all_accepted out d []). intros pre line post Heq.
  now apply (Hacc pre line post).
Qed.






(** The report of the sample deployment, line by line. *)
Example script_on_sample_fs :
  script utf8_stream fragment_engine sample_fs
  = ( [ str "volumes:.*mcp_config.db: " ++ pass_glyph;
        str "command:.*dev: " ++ fail_glyph;
        str "certbot/certbot: " ++ fail_glyph;
        str "9229: " ++ pass_glyph;
        str "listen 443 ssl: " ++ pass_glyph;
        str "certbot: " ++ pass_glyph;
        str "proxy_pass http://app:3000: " ++ pass_glyph;
        str ".env.example: " ++ file_missing;
        str "src/lib/mcp/config.ts: " ++ file_missing;
        str "src/app/api/mcp/config/route.ts: " ++ file_missing ],
      Returns tt ).
Proof. vm_compute. reflexivity. Qed.

(** * The claims *)

(** C1. For a file that exists and a pattern of its list, [check] maps
    the pattern itself to the pass glyph when the search finds a match and
    to the fail glyph when it finds none.  The search is unanchored: for a
    pattern of the fragment, it passes exactly when some substring of the
    content belongs to the pattern's language. *)
Theorem check_records_search_result E fs file content patterns pattern :
  fs file = File content ->
  (forall p, In p patterns -> searchable E content p) ->
  In pattern patterns ->
  exists d, check E fs file patterns = Returns d /\
    (re_search E pattern content = Returns true ->
     get pattern d = Some pass_glyph) /\
    (re_search E pattern content = Returns false ->
     get pattern d = Some fail_glyph) /\
    (forall r, Re.parse pattern = Re.Parsed r ->
       (get pattern d = Some pass_glyph <->
        exists u v w, content = u ++ v ++ w /\ Re.lang r v)).
Proof.
  intros Hf Hs Hin. exists (written E content patterns []).
  split; [now apply check_file|].
  rewrite (written_get E content patterns [] pattern Hin).
  split; [|split].
  - intros H. now rewrite (found_returns _ _ _ H).
  - intros H. now rewrite (found_returns _ _ _ H).
  - intros r Hr.
    rewrite (found_returns _ _ _ (re_search_parsed E _ content Hr)).
    rewrite <- ReFacts.search_spec.
    destruct (Re.search r content); simpl; split; trivial; try discriminate.
Qed.

Lemma check_records_search_result_witness :
  sample_fs (str "nginx.conf") = File sample_nginx /\
  In (str "certbot") nginx_patterns /\
  exists d, check fragment_engine sample_fs (str "nginx.conf") nginx_patterns
            = Returns d /\
    (re_search fragment_engine (str "certbot") sample_nginx = Returns true ->
     get (str "certbot") d = Some pass_glyph) /\
    (re_search fragment_engine (str "certbot") sample_nginx = Returns false ->
     get (str "certbot") d = Some fail_glyph) /\
    (forall r, Re.parse (str "certbot") = Re.Parsed r ->
       (get (str "certbot") d = Some pass_glyph <->
        exists u v w, sample_nginx = u ++ v ++ w /\ Re.lang r v)).
Proof.
  split; [reflexivity|]. split; [simpl; tauto|].
  apply (@check_records_search_result fragment_engine sample_fs
           (str "nginx.conf") sample_nginx nginx_patterns (str "certbot")).
  - reflexivity.
  - intros p Hp. apply compiles_searchable.
    destruct Hp as [<-|[<-|[<-|[]]]]; reflexivity.
  - simpl. tauto.
Defined.

(** C2. For a path that does not exist, [check] returns a dict with
    exactly one key, the relative path as given, whatever the patterns
    are: none of them is searched and none becomes a key. *)
Theorem check_missing_file_single_key E fs file patterns :
  fs file = Missing ->
  exists d, check E fs file patterns = Returns d /\
    keys d = [file] /\ d = [(file, file_missing)].
Proof.
  intros Hf. exists [(file, file_missing)]. split; [|split]; trivial.
  now apply check_missing.
Qed.

Lemma check_missing_file_single_key_witness :
  sample_fs (str ".env.example") = Missing /\
  exists d, check fragment_engine sample_fs (str ".env.example")
              [str "NODE_ENV"; str "("] = Returns d /\
    keys d = [str ".env.example"] /\
    d = [(str ".env.example", file_missing)].
Proof.
  split; [reflexivity|].
  apply (@check_missing_file_single_key fragment_engine sample_fs
           (str ".env.example") [str "NODE_ENV"; str "("]).
  reflexivity.
Defined.

(** C3 as stated fails: with nothing deployed, the status stored for
    [.env.example] is the fail glyph followed by [ FILE MISSING], which is
    none of the pass glyph, the fail glyph and the bare [FILE MISSING],
    and [.env.example: FILE MISSING] is not among the lines of the
    report. *)
Lemma missing_status_is_not_bare_marker :
  exists d, results fragment_engine empty_fs = Returns d /\
    get (str ".env.example") d = Some file_missing /\
    file_missing <> pass_glyph /\ file_missing <> fail_glyph /\
    file_missing <> str "FILE MISSING" /\
    ~ In (str ".env.example: FILE MISSING") (map format_line d).
Proof.
  eexists. split; [vm_compute; reflexivity|].
  split; [reflexivity|].
  repeat split; try discriminate.
  vm_compute. intuition discriminate.
Qed.

(** C3, amended.  Every status of the report is the pass glyph, the fail
    glyph, or the fail glyph followed by [ FILE MISSING]; when
    [.env.example] does not exist, its key has exactly one item, with that
    third status, and the line of the report for it, printed whenever
    standard output takes the report, is the key, a colon and a space,
    and that status. *)
Theorem report_statuses E fs d :
  results E fs = Returns d ->
  (forall v, In v (values d) ->
     v = pass_glyph \/ v = fail_glyph \/ v = file_missing) /\
  (fs (str ".env.example") = Missing ->
     entries_for (str ".env.example") d
       = [(str ".env.example", file_missing)] /\
     In (str ".env.example: " ++ file_missing) (map format_line d) /\
     forall out, accepts out (map format_line d) ->
       In (str ".env.example: " ++ file_missing) (fst (script out E fs))).
Proof.
  intros Hrun. split.
  - intros v Hv.
    destruct (run_manifest_values _ _ _ _ v Hrun Hv) as [[]|H]. exact H.
  - intros Hmiss.
    assert (get (str ".env.example") d = Some file_missing) as Hget.
    { unfold results in Hrun.
      change manifest with (firstn 2 manifest ++ nth 2 manifest (nil, nil)
                            :: skipn 3 manifest) in Hrun.
      eapply run_manifest_last_write; [| |..|exact Hrun].
      - apply check_missing. exact Hmiss.
      - reflexivity.
      - intros e' r' He' Hc Hk.
        pose proof (check_keys _ _ _ _ _ Hc Hk) as Hin.
        simpl in He'. destruct He' as [<-|[<-|[]]];
          vm_compute in Hin; intuition discriminate. }
    assert (In (str ".env.example: " ++ file_missing) (map format_line d))
      as Hline.
    { apply get_some_in in Hget.
      change (str ".env.example: " ++ file_missing)
        with (format_line (str ".env.example", file_missing)).
      now apply in_map. }
    split; [|split; [exact Hline|]].
    + apply entries_for_unique; trivial.
      eapply run_manifest_NoDup; [|exact Hrun]. constructor.
    + intros out Hacc.
      now rewrite (@script_accepted out E fs d Hrun Hacc).
Qed.

Lemma report_statuses_witness :
  exists d, results fragment_engine sample_fs = Returns d /\
  (forall v, In v (values d) ->
     v = pass_glyph \/ v = fail_glyph \/ v = file_missing) /\
  (sample_fs (str ".env.example") = Missing ->
     entries_for (str ".env.example") d
       = [(str ".env.example", file_missing)] /\
     In (str ".env.example: " ++ file_missing) (map format_line d) /\
     forall out, accepts out (map format_line d) ->
       In (str ".env.example: " ++ file_missing)
          (fst (script out fragment_engine sample_fs))).
Proof.
  eexists. split; [vm_compute; reflexivity|].
  apply (@report_statuses fragment_engine sample_fs). vm_compute. reflexivity.
Defined.

(** C4 as stated fails: [A] on one line and [B] on the next, and the
    pattern [A.*B] records the fail glyph, because the pattern is compiled
    without DOTALL and [.] stops at a newline. *)
Lemma dot_star_fails_across_lines :
  (exists u m w, two_lines = u ++ str "A" ++ m ++ str "B" ++ w) /\
  check fragment_engine (fs_of [(str "notes.txt", File two_lines)])
    (str "notes.txt") [str "A.*B"]
  = Returns [(str "A.*B", fail_glyph)].
Proof.
  split.
  - exists [], [Re.newline], []. reflexivity.
  - vm_compute. reflexivity.
Qed.

(** C4, amended.  For an existing file and a pattern [A.*B] whose parts
    [A] and [B] are ordinary characters, the search is unanchored but stays
    on one line: the pattern records pass exactly when [A] occurs somewhere
    in the content and [B] occurs after it with no newline in between, and
    fail otherwise. *)
Theorem check_dot_star_same_line E fs file content A B :
  forallb Re.plain A = true -> forallb Re.plain B = true ->
  fs file = File content ->
  (same_line A B content ->
   check E fs file [A ++ str ".*" ++ B]
   = Returns [(A ++ str ".*" ++ B, pass_glyph)]) /\
  (~ same_line A B content ->
   check E fs file [A ++ str ".*" ++ B]
   = Returns [(A ++ str ".*" ++ B, fail_glyph)]).
Proof.
  intros HA HB Hf.
  pose proof (ReFacts.parse_dot_star A B HA HB) as Hp.
  pose proof (re_search_parsed E _ content Hp) as Hs.
  assert (Re.search (Re.dot_star_regex A B) content = true
          <-> same_line A B content) as Hiff.
  { rewrite ReFacts.search_spec. unfold same_line. split.
    - intros (u & v & w & -> & Hv).
      apply ReFacts.lang_dot_star in Hv as (m & -> & Hm).
      exists u, m, w. split; trivial. now rewrite <- !app_assoc.
    - intros (u & m & w & -> & Hm).
      exists u, (A ++ m ++ B), w. split; [now rewrite <- !app_assoc|].
      apply ReFacts.lang_dot_star. eauto. }
  unfold check. rewrite Hf. cbn [comprehension]. rewrite Hs. cbn [bind].
  split; intros H.
  - apply Hiff in H. now rewrite H.
  - destruct (Re.search (Re.dot_star_regex A B) content); trivial.
    destruct H. now apply Hiff.
Qed.

Lemma check_dot_star_same_line_witness :
  forallb Re.plain (str "listen") = true /\
  forallb Re.plain (str "ssl") = true /\
  sample_fs (str "nginx.conf") = File sample_nginx /\
  (same_line (str "listen") (str "ssl") sample_nginx ->
   check fragment_engine sample_fs (str "nginx.conf")
     [str "listen" ++ str ".*" ++ str "ssl"]
   = Returns [(str "listen" ++ str ".*" ++ str "ssl", pass_glyph)]) /\
  (~ same_line (str "listen") (str "ssl") sample_nginx ->
   check fragment_engine sample_fs (str "nginx.conf")
     [str "listen" ++ str ".*" ++ str "ssl"]
   = Returns [(str "listen" ++ str ".*" ++ str "ssl", fail_glyph)]).
Proof.
  split; [reflexivity|]. split; [reflexivity|]. split; [reflexivity|].
  apply (@check_dot_star_same_line fragment_engine sample_fs
           (str "nginx.conf") sample_nginx (str "listen") (str "ssl"));
    reflexivity.
Defined.

(** C5. When two manifest entries both produce the key [k] (a shared
    pattern, or a pattern equal to the identifier of a missing file) and
    no entry processed after the second one produces it, the merged report
    has exactly one item for [k], and its status is the one the second,
    later-processed entry gave it. *)
Theorem merge_last_write_wins E fs pre e1 mid e2 post k r1 r2 d :
  check E fs (fst e1) (snd e1) = Returns r1 -> In k (keys r1) ->
  check E fs (fst e2) (snd e2) = Returns r2 -> In k (keys r2) ->
  (forall e r, In e post -> check E fs (fst e) (snd e) = Returns r ->
               ~ In k (keys r)) ->
  run_manifest E fs (pre ++ e1 :: mid ++ e2 :: post) [] = Returns d ->
  exists v, get k r2 = Some v /\ entries_for k d = [(k, v)].
Proof.
  intros _ _ Hc2 Hk2 Hpost Hrun.
  destruct (get_in_keys _ _ Hk2) as [v Hv]. exists v. split; trivial.
  apply entries_for_unique.
  - eapply run_manifest_NoDup; [|exact Hrun]. constructor.
  - change (pre ++ e1 :: mid ++ e2 :: post)
      with (pre ++ (e1 :: mid) ++ e2 :: post) in Hrun.
    rewrite app_assoc in Hrun.
    eapply run_manifest_last_write; eassumption.
Qed.

Lemma merge_last_write_wins_witness :
  exists r1 r2 d,
    check fragment_engine shared_fs (fst shared_first) (snd shared_first)
      = Returns r1 /\ In (str "certbot") (keys r1) /\
    check fragment_engine shared_fs (fst shared_second) (snd shared_second)
      = Returns r2 /\ In (str "certbot") (keys r2) /\
    run_manifest fragment_engine shared_fs
      ([] ++ shared_first :: [] ++ shared_second :: []) [] = Returns d /\
    get (str "certbot") r1 = Some pass_glyph /\
    exists v, get (str "certbot") r2 = Some v /\
              entries_for (str "certbot") d = [(str "certbot", v)].
Proof.
  exists [(str "certbot", pass_glyph)], [(str "certbot", fail_glyph)],
         [(str "certbot", fail_glyph)].
  split; [reflexivity|]. split; [simpl; tauto|].
  split; [reflexivity|]. split; [simpl; tauto|].
  split; [reflexivity|]. split; [reflexivity|].
  apply (@merge_last_write_wins fragment_engine shared_fs [] shared_first []
           shared_second [] (str "certbot")
           [(str "certbot", pass_glyph)] [(str "certbot", fail_glyph)]
           [(str "certbot", fail_glyph)]).
  - reflexivity.
  - simpl; tauto.
  - reflexivity.
  - simpl; tauto.
  - intros e r [].
  - reflexivity.
Defined.

(** C6. [check] raises nothing when the file is missing, whatever the
    patterns, or when the file is read and every search returns, found or
    not: it returns a dict in which the missing file is the single item
    and every pattern that was not found maps to the fail glyph, and the
    statements that follow in the module body run on the merged dict. *)
Theorem check_reports_as_data E fs file patterns :
  fs file = Missing \/
  (exists content, fs file = File content /\
     forall p, In p patterns -> searchable E content p) ->
  exists d, check E fs file patterns = Returns d /\
    (fs file = Missing -> d = [(file, file_missing)]) /\
    (forall content p, fs file = File content -> In p patterns ->
       re_search E p content = Returns false -> get p d = Some fail_glyph) /\
    (forall rest acc,
       run_manifest E fs ((file, patterns) :: rest) acc
       = run_manifest E fs rest (update acc d)).
Proof.
  intros [Hmiss|(content & Hf & Hs)].
  - exists [(file, file_missing)].
    pose proof (@check_missing E fs file patterns Hmiss) as Hc.
    split; [exact Hc|]. split; [trivial|]. split.
    + intros c p Hf. congruence.
    + intros rest acc. now apply run_manifest_cons.
  - exists (written E content patterns []).
    pose proof (@check_file E fs file content patterns Hf Hs) as Hc.
    split; [exact Hc|]. split; [congruence|]. split.
    + intros c p Hf' Hp Hr. assert (c = content) as -> by congruence.
      rewrite written_get by assumption.
      now rewrite (found_returns _ _ _ Hr).
    + intros rest acc. now apply run_manifest_cons.
Qed.

Lemma check_reports_as_data_witness :
  exists d, check fragment_engine sample_fs (str "nginx.conf")
              [str "certbot"; str "upstream"] = Returns d /\
    (sample_fs (str "nginx.conf") = Missing ->
       d = [(str "nginx.conf", file_missing)]) /\
    (forall content p, sample_fs (str "nginx.conf") = File content ->
       In p [str "certbot"; str "upstream"] ->
       re_search fragment_engine p content = Returns false ->
       get p d = Some fail_glyph) /\
    (forall rest acc,
       run_manifest fragment_engine sample_fs
         ((str "nginx.conf", [str "certbot"; str "upstream"]) :: rest) acc
       = run_manifest fragment_engine sample_fs rest (update acc d)).
Proof.
  apply (@check_reports_as_data fragment_engine sample_fs (str "nginx.conf")
           [str "certbot"; str "upstream"]).
  right. exists sample_nginx. split; [reflexivity|].
  intros p Hp. apply compiles_searchable.
  destruct Hp as [<-|[<-|[]]]; reflexivity.
Defined.






(** C9. The output is a function of the five target files alone: on the
    same standard output, two runs that see the same state at those paths
    end the same way and print the same lines in the same order. *)
Theorem script_deterministic out E fs1 fs2 :
  (forall file, In file (map fst manifest) -> fs1 file = fs2 file) ->
  script out E fs1 = script out E fs2.
Proof.
  intros Hfs. unfold script, results.
  rewrite (@run_manifest_ext E fs1 fs2 manifest []); trivial.
  intros e He. apply Hfs. now apply in_map.
Qed.

Lemma script_deterministic_witness :
  script utf8_stream fragment_engine sample_fs
  = script utf8_stream fragment_engine
      (fun path => if text_eqb path (str "unrelated.txt")
                   then File (str "certbot") else sample_fs path).
Proof.
  apply (@script_deterministic utf8_stream fragment_engine sample_fs).
  intros file Hin.
  simpl in Hin. destruct Hin as [<-|[<-|[<-|[<-|[<-|[]]]]]]; reflexivity.
Defined.

(** C10. A pattern list that contains the unbalanced parenthesis makes
    [check] raise although the file exists and is read: the pattern goes
    to the regex engine as it is, and the engine rejects it. *)
Theorem check_raises_on_unbalanced_paren E fs file content patterns :
  fs file = File content -> In (str "(") patterns ->
  (exists e, check E fs file patterns = Raises e) /\
  check E fs file [str "("] = Raises ReError.
Proof.
  intros Hf Hin.
  assert (re_search E (str "(") content = Raises ReError) as Hr
    by (now apply re_search_error).
  unfold check. rewrite Hf. split.
  - eapply comprehension_raises; eassumption.
  - cbn [comprehension]. now rewrite Hr.
Qed.

Lemma check_raises_on_unbalanced_paren_witness :
  (exists e, check fragment_engine sample_fs (str "nginx.conf")
               [str "certbot"; str "("] = Raises e) /\
  check fragment_engine sample_fs (str "nginx.conf") [str "("]
  = Raises ReError.
Proof.
  apply (@check_raises_on_unbalanced_paren fragment_engine sample_fs
           (str "nginx.conf") sample_nginx [str "certbot"; str "("]).
  - reflexivity.
  - simpl. tauto.
Defined.

(** * Further properties of the script *)

(** ** Helpers *)

Lemma filter_filter (f g : text -> bool) l :
  filter f (filter g l) = filter (fun x => g x && f x) l.
Proof.
  induction l as [|x l IH]; simpl; trivial.
  destruct (g x); simpl; [destruct (f x)|]; now rewrite IH.
Qed.

Lemma existsb_text_in x l : existsb (text_eqb x) l = true <-> In x l.
Proof.
  rewrite existsb_exists. split.
  - intros (y & Hy & Heq). apply text_eqb_eq in Heq. now subst.
  - intros Hin. exists x. split; trivial. apply text_eqb_refl.
Qed.

Lemma text_eqb_sym a b : text_eqb a b = text_eqb b a.
Proof.
  destruct (text_eqb b a) eqn:H.
  - apply text_eqb_eq in H. subst. apply text_eqb_refl.
  - apply text_eqb_neq. apply text_eqb_neq in H. congruence.
Qed.

Lemma filter_all (f : text -> bool) l :
  (forall x, In x l -> f x = true) -> filter f l = l.
Proof.
  induction l as [|x l IH]; simpl; intros H; trivial.
  rewrite (H x (or_introl eq_refl)). f_equal. apply IH. auto.
Qed.

Lemma first_occurrences_in l x : In x (first_occurrences l) <-> In x l.
Proof.
  induction l as [|y l IH]; simpl; [tauto|].
  rewrite filter_In, IH, negb_true_iff, text_eqb_neq.
  destruct (list_eq_dec N.eq_dec y x); intuition.
Qed.

Lemma first_occurrences_NoDup l : NoDup l -> first_occurrences l = l.
Proof.
  induction l as [|x l IH]; simpl; intros Hnd; trivial.
  inversion Hnd as [|? ? Hnotin Hnd']; subst.
  rewrite IH by assumption. f_equal. apply filter_all.
  intros y Hy. apply negb_true_iff, text_eqb_neq. congruence.
Qed.

(** The keys after a comprehension: the old ones, then the new patterns
    in the order of their first occurrence. *)
Lemma written_keys_order E content patterns : forall acc,
  keys (written E content patterns acc)
  = keys acc
    ++ filter (fun y => negb (existsb (text_eqb y) (keys acc)))
         (first_occurrences patterns).
Proof.
  induction patterns as [|p ps IH]; intros acc.
  - simpl. now rewrite app_nil_r.
  - change (written E content (p :: ps) acc)
      with (written E content ps (dict_set p (glyph (found E p content)) acc)).
    rewrite IH. cbn [first_occurrences filter].
    destruct (existsb (text_eqb p) (keys acc)) eqn:Hp; cbn [negb].
    + apply existsb_text_in in Hp.
      rewrite keys_dict_set_in by assumption. f_equal.
      rewrite filter_filter. apply filter_ext_in. intros y _.
      destruct (text_eqb p y) eqn:Hpy; cbn [negb andb]; trivial.
      apply text_eqb_eq in Hpy. subst y.
      apply existsb_text_in in Hp. now rewrite Hp.
    + assert (~ In p (keys acc)) as Hn.
      { intros H. apply existsb_text_in in H. congruence. }
      rewrite dict_set_fresh by assumption. unfold keys at 1 2.
      rewrite map_app. cbn [map fst]. rewrite <- app_assoc. f_equal.
      cbn [app]. f_equal. rewrite filter_filter. apply filter_ext.
      intros y. rewrite existsb_app. cbn [existsb].
      rewrite orb_false_r, negb_orb, (text_eqb_sym p y).
      apply andb_comm.
Qed.

Lemma parse_plain P :
  forallb Re.plain P = true ->
  Re.parse P = Re.Parsed (Re.seq_regex (map Re.Lit P)).
Proof.
  intros HP. unfold Re.parse. rewrite <- (app_nil_r P) at 1.
  rewrite ReFacts.parse_go_plain by assumption. cbn [Re.parse_go].
  unfold Re.close, Re.close_branch.
  rewrite ReFacts.push_lits_branches, ReFacts.push_lits_items.
  cbn [Re.branches Re.items Re.empty_frame].
  now rewrite app_nil_r, rev_involutive.
Qed.

Lemma search_grows r content u w :
  Re.search r content = true -> Re.search r (u ++ content ++ w) = true.
Proof.
  rewrite !ReFacts.search_spec. intros (a & v & b & -> & Hv).
  exists (u ++ a), v, (b ++ w). split; trivial.
  now rewrite <- !app_assoc.
Qed.

(** A pattern that compiles is consumed to the end with no group left
    open: what follows it is parsed from there, outside every group. *)
Lemma parse_go_continue n : forall A rest f stack r,
  (List.length A <= n)%nat ->
  Re.parse_go A f stack = Re.Parsed r ->
  exists f', Re.parse_go (A ++ rest) f stack = Re.parse_go rest f' [].
Proof.
  induction n as [|n IH]; intros A rest f stack r Hlen H.
  - destruct A; [|simpl in Hlen; lia].
    simpl in H. destruct stack; [|discriminate]. now exists f.
  - destruct A as [|c A].
    + simpl in H. destruct stack; [|discriminate]. now exists f.
    + simpl in Hlen. cbn [Re.parse_go app] in *.
      destruct (Re.classify c) as [| | | | |q| |c'].
      * destruct A as [|d A']; [discriminate|]. cbn [app].
        destruct (d =? 63); [discriminate|].
        apply (IH (d :: A') rest _ _ r); [simpl in *; lia | exact H].
      * destruct stack as [|parent stack']; [discriminate|].
        apply (IH A rest _ _ r); [lia | exact H].
      * apply (IH A rest _ _ r); [lia | exact H].
      * apply (IH A rest _ _ r); [lia | exact H].
      * destruct A as [|d A']; [discriminate|]. cbn [app].
        destruct (Re.is_ascii_alnum d); [discriminate|].
        apply (IH A' rest _ _ r); [simpl in *; lia | exact H].
      * destruct (Re.items f) as [|x its]; [discriminate|].
        destruct (Re.repeated f); [discriminate|].
        apply (IH A rest _ _ r); [lia | exact H].
      * discriminate.
      * apply (IH A rest _ _ r); [lia | exact H].
Qed.

(** The same pattern inside a group that is never closed is rejected. *)
Lemma parse_go_deeper n : forall A f stack extra r,
  (List.length A <= n)%nat -> extra <> [] ->
  Re.parse_go A f stack = Re.Parsed r ->
  Re.parse_go A f (stack ++ extra) = Re.SyntaxError.
Proof.
  induction n as [|n IH]; intros A f stack extra r Hlen Hextra H.
  - destruct A; [|simpl in Hlen; lia].
    simpl in H. destruct stack; [|discriminate].
    simpl. now destruct extra.
  - destruct A as [|c A].
    + simpl in H. destruct stack; [|discriminate].
      simpl. now destruct extra.
    + simpl in Hlen. cbn [Re.parse_go] in *.
      destruct (Re.classify c) as [| | | | |q| |c'].
      * destruct A as [|d A']; [discriminate|].
        destruct (d =? 63); [discriminate|].
        change (f :: stack ++ extra) with ((f :: stack) ++ extra).
        apply (IH (d :: A') _ _ extra r); trivial. simpl in *; lia.
      * destruct stack as [|parent stack']; [discriminate|]. cbn [app].
        apply (IH A _ _ extra r); trivial. lia.
      * apply (IH A _ _ extra r); trivial. lia.
      * apply (IH A _ _ extra r); trivial. lia.
      * destruct A as [|d A']; [discriminate|].
        destruct (Re.is_ascii_alnum d); [discriminate|].
        apply (IH A' _ _ extra r); trivial. simpl in *; lia.
      * destruct (Re.items f) as [|x its]; [discriminate|].
        destruct (Re.repeated f); [discriminate|].
        apply (IH A _ _ extra r); trivial. lia.
      * discriminate.
      * apply (IH A _ _ extra r); trivial. lia.
Qed.

Lemma compiles_parsed A :
  Re.compiles A = true -> exists r, Re.parse A = Re.Parsed r.
Proof.
  unfold Re.compiles. destruct (Re.parse A) as [r| |]; try discriminate. eauto.
Qed.

Lemma parse_malformed p : malformed p -> Re.parse p = Re.SyntaxError.
Proof.
  intros [c rest Hc | A rest HA | A HA | A B HA HB Hext].
  - unfold Re.parse. simpl in Hc. destruct Hc as [<-|[<-|[<-|[]]]]; reflexivity.
  - apply compiles_parsed in HA as [r HA]. unfold Re.parse in *.
    destruct (parse_go_continue (n := List.length A) A (41 :: rest)
                Re.empty_frame [] (le_n _) HA) as [f' ->].
    reflexivity.
  - apply compiles_parsed in HA as [r HA]. unfold Re.parse in *.
    destruct (parse_go_continue (n := List.length A) A [92]
                Re.empty_frame [] (le_n _) HA) as [f' ->].
    reflexivity.
  - apply compiles_parsed in HA as [r HA].
    apply compiles_parsed in HB as [rb HB]. unfold Re.parse in *.
    destruct (parse_go_continue (n := List.length A) A (40 :: B)
                Re.empty_frame [] (le_n _) HA) as [f' ->].
    cbn [Re.parse_go]. change (Re.classify 40) with Re.TOpen. cbv iota.
    destruct B as [|d B']; trivial.
    destruct (N.eqb_spec d 63) as [->|_]; [now destruct (Hext B')|].
    assert ([f'] <> []) as Hne by discriminate.
    exact (@parse_go_deeper _ (d :: B') Re.empty_frame [] [f'] rb
             (le_n _) Hne HB).
Qed.

Lemma dict_set_same_value k v d : get k d = Some v -> dict_set k v d = d.
Proof.
  induction d as [|[k' v'] d IH]; simpl; [discriminate|].
  destruct (text_eqb k k'); [now intros [= ->]|].
  intros H. now rewrite IH.
Qed.

Lemma update_absorbed r : forall d,
  (forall k v, In (k, v) r -> get k d = Some v) -> update d r = d.
Proof.
  induction r as [|[k v] r IH]; intros d H; trivial.
  rewrite update_cons, dict_set_same_value by (apply H; now left).
  apply IH. intros k' v' Hin. apply H. now right.
Qed.

Lemma get_of_in k v d : NoDup (keys d) -> In (k, v) d -> get k d = Some v.
Proof.
  induction d as [|[k' v'] d IH]; simpl; [tauto|].
  intros Hnd Hin. inversion Hnd as [|? ? Hnotin Hnd']; subst.
  destruct Hin as [[= -> ->]|Hin]; [now rewrite text_eqb_refl|].
  destruct (text_eqb k k') eqn:Hk; [|now apply IH].
  apply text_eqb_eq in Hk. subst k'. destruct Hnotin.
  change k with (fst (k, v)). now apply in_map.
Qed.

Lemma update_idempotent d r :
  NoDup (keys r) -> update (update d r) r = update d r.
Proof.
  intros Hnd. apply update_absorbed. intros k v Hin.
  rewrite get_update by assumption. now rewrite (@get_of_in k v r Hnd Hin).
Qed.

(** [update] keeps the keys it finds where they are and appends the new
    ones. *)
Lemma update_keys_prefix r : forall d,
  exists tail, keys (update d r) = keys d ++ tail.
Proof.
  induction r as [|[k v] r IH]; intros d.
  - exists []. simpl. now rewrite app_nil_r.
  - rewrite update_cons. destruct (IH (dict_set k v d)) as [tail ->].
    destruct (in_dec (list_eq_dec N.eq_dec) k (keys d)) as [Hin|Hn].
    + rewrite keys_dict_set_in by assumption. eauto.
    + rewrite dict_set_fresh by assumption. unfold keys.
      rewrite map_app, <- app_assoc. eauto.
Qed.

Lemma run_manifest_keys_prefix E fs entries : forall acc d,
  run_manifest E fs entries acc = Returns d ->
  exists tail, keys d = keys acc ++ tail.
Proof.
  induction entries as [|e rest IH]; intros acc d Hrun.
  - injection Hrun as <-. exists []. now rewrite app_nil_r.
  - apply run_manifest_cons_inv in Hrun as (r & _ & Hrun).
    destruct (IH _ _ Hrun) as [tail ->].
    destruct (update_keys_prefix r acc) as [tail' ->].
    rewrite <- app_assoc. eauto.
Qed.

Lemma run_manifest_keys E fs entries : forall acc d k,
  run_manifest E fs entries acc = Returns d ->
  (In k (keys d) <->
   In k (keys acc) \/
   exists e r, In e entries /\ check E fs (fst e) (snd e) = Returns r
               /\ In k (keys r)).
Proof.
  induction entries as [|e rest IH]; intros acc d k Hrun.
  - injection Hrun as <-. split; [tauto|].
    intros [H|(e & r & [] & _)]. exact H.
  - apply run_manifest_cons_inv in Hrun as (r & Hc & Hrun).
    rewrite (IH _ _ k Hrun), in_keys_update. split.
    + intros [[H|H]|(e' & r' & He' & Hc' & Hk)]; [tauto| |].
      * right. exists e, r. repeat split; trivial. now left.
      * right. exists e', r'. repeat split; trivial. now right.
    + intros [H|(e' & r' & [<-|He'] & Hc' & Hk)]; [tauto| |].
      * left. right. congruence.
      * right. eauto.
Qed.

Lemma run_manifest_unreadable E fs entries : forall acc,
  (forall e p c, In e entries -> In p (snd e) -> searchable E c p) ->
  (exists e, In e entries /\ fs (fst e) = Unreadable) ->
  run_manifest E fs entries acc = Raises ReadError.
Proof.
  induction entries as [|e rest IH]; intros acc Hs (e0 & He0 & Hu);
    [destruct He0|].
  cbn [run_manifest]. unfold update_check.
  destruct (fs (fst e)) as [| |content] eqn:Hf.
  - rewrite (@check_missing E fs (fst e) (snd e) Hf). cbn [bind].
    apply IH; [intros e' p c He'; apply Hs; now right|].
    destruct He0 as [<-|He0]; [congruence | eauto].
  - unfold check. now rewrite Hf.
  - rewrite (@check_file E fs (fst e) content (snd e) Hf)
      by (intros p Hp; now apply (Hs e p content (or_introl eq_refl))).
    cbn [bind].
    apply IH; [intros e' p c He'; apply Hs; now right|].
    destruct He0 as [<-|He0]; [congruence | eauto].
Qed.

Lemma run_manifest_raises_inv E fs entries : forall acc x,
  (forall e p c, In e entries -> In p (snd e) -> searchable E c p) ->
  run_manifest E fs entries acc = Raises x ->
  x = ReadError /\ exists e, In e entries /\ fs (fst e) = Unreadable.
Proof.
  induction entries as [|e rest IH]; intros acc x Hs Hrun; [discriminate|].
  cbn [run_manifest] in Hrun. unfold update_check in Hrun.
  assert (forall e' p c, In e' rest -> In p (snd e') -> searchable E c p)
    as Hs' by (intros e' p c He'; apply Hs; now right).
  destruct (fs (fst e)) as [| |content] eqn:Hf.
  - rewrite (@check_missing E fs (fst e) (snd e) Hf) in Hrun.
    cbn [bind] in Hrun.
    destruct (IH _ _ Hs' Hrun) as (-> & e' & He' & Hu).
    split; trivial. exists e'. split; [now right | exact Hu].
  - unfold check in Hrun. rewrite Hf in Hrun. cbn [bind] in Hrun.
    injection Hrun as <-. split; trivial. exists e. split; [now left|exact Hf].
  - rewrite (@check_file E fs (fst e) content (snd e) Hf) in Hrun
      by (intros p Hp; now apply (Hs e p content (or_introl eq_refl))).
    cbn [bind] in Hrun.
    destruct (IH _ _ Hs' Hrun) as (-> & e' & He' & Hu).
    split; trivial. exists e'. split; [now right | exact Hu].
Qed.

(** ** Failure of the whole run *)

(** X1. When one of the five target paths exists and cannot be read, the
    script ends with the read error and prints nothing, whatever standard
    output is and whatever the files checked before hold.  The script
    raises in two ways only: that one, or standard output refuses a line
    of the report, and then exactly the lines before that one are out. *)
Theorem script_raises_on_unreadable_or_refused_line out E fs :
  ((exists file, In file (map fst manifest) /\ fs file = Unreadable) ->
   script out E fs = ([], Raises ReadError)) /\
  (forall x, snd (script out E fs) = Raises x ->
     (x = ReadError /\ fst (script out E fs) = [] /\
      exists file, In file (map fst manifest) /\ fs file = Unreadable) \/
     (exists d pre line post,
        results E fs = Returns d /\
        map format_line d = pre ++ line :: post /\
        out pre line = Some x /\ fst (script out E fs) = pre)).
Proof.
  assert (forall e p c, In e manifest -> In p (snd e) -> searchable E c p)
    as Hs by (intros e p c; apply manifest_searchable).
  unfold script, results. split.
  - intros (file & Hin & Hu). apply in_map_iff in Hin as (e & <- & He).
    rewrite (@run_manifest_unreadable E fs manifest [] Hs); eauto.
  - intros x Hx.
    destruct (run_manifest E fs manifest []) as [d|y] eqn:Hrun.
    + right. destruct (print_all out [] d) as [w o] eqn:Hprint.
      cbn [snd] in Hx. subst o.
      destruct (print_all_raises_inv out d [] Hprint)
        as (pre & line & post & Hmap & Hrefuse & ->).
      exists d, pre, line, post. auto.
    + left. cbn [snd] in Hx. injection Hx as ->.
      destruct (@run_manifest_raises_inv E fs manifest [] x Hs Hrun)
        as (-> & e & He & Hu).
      split; trivial. split; trivial.
      exists (fst e). split; trivial. now apply in_map.
Qed.

Lemma script_raises_on_unreadable_or_refused_line_witness :
  script utf8_stream fragment_engine unreadable_fs = ([], Raises ReadError).
Proof.
  apply (proj1 (@script_raises_on_unreadable_or_refused_line
                  utf8_stream fragment_engine unreadable_fs)).
  exists (str "nginx.conf"). split; [simpl; tauto | reflexivity].
Defined.

(** ** The dict [check] returns *)

(** X2. For a file that is read, the keys of the returned dict are the
    patterns in the order of their first occurrence, each one once: a
    repeated pattern adds no key, and a list without repetition comes back
    as it is. *)
Theorem check_keys_first_occurrences E fs file content patterns :
  fs file = File content ->
  (forall p, In p patterns -> searchable E content p) ->
  exists d, check E fs file patterns = Returns d /\
    keys d = first_occurrences patterns /\
    (List.length d <= List.length patterns)%nat /\
    (NoDup patterns -> keys d = patterns).
Proof.
  intros Hf Hs. exists (written E content patterns []).
  split; [now apply check_file|].
  assert (keys (written E content patterns []) = first_occurrences patterns)
    as Hk.
  { rewrite written_keys_order. cbn [keys map app existsb negb].
    now apply filter_all. }
  split; [exact Hk|]. split.
  - rewrite <- (length_map fst). fold (keys (written E content patterns [])).
    rewrite Hk. clear. induction patterns as [|x l IH]; simpl; [lia|].
    pose proof (filter_length_le (fun y => negb (text_eqb x y))
                  (first_occurrences l)). lia.
  - intros Hnd. now rewrite Hk, first_occurrences_NoDup.
Qed.

Lemma check_keys_first_occurrences_witness :
  exists d, check fragment_engine sample_fs (str "nginx.conf")
              [str "certbot"; str "upstream"; str "certbot"] = Returns d /\
    keys d = first_occurrences [str "certbot"; str "upstream"; str "certbot"] /\
    (List.length d
     <= List.length [str "certbot"; str "upstream"; str "certbot"])%nat /\
    (NoDup [str "certbot"; str "upstream"; str "certbot"] ->
     keys d = [str "certbot"; str "upstream"; str "certbot"]).
Proof.
  apply (@check_keys_first_occurrences fragment_engine sample_fs
           (str "nginx.conf") sample_nginx
           [str "certbot"; str "upstream"; str "certbot"]).
  - reflexivity.
  - intros p Hp. apply compiles_searchable.
    destruct Hp as [<-|[<-|[<-|[]]]]; reflexivity.
Defined.

(** ** What a pattern means *)

(** X3. A pattern made of ordinary characters only is a case-sensitive
    substring test: it records pass exactly when the pattern occurs in the
    content, character for character, and fail exactly when it does not. *)
Theorem plain_pattern_is_substring_test E fs file content patterns P :
  forallb Re.plain P = true ->
  fs file = File content ->
  (forall p, In p patterns -> searchable E content p) ->
  In P patterns ->
  exists d, check E fs file patterns = Returns d /\
    (get P d = Some pass_glyph <-> exists u w, content = u ++ P ++ w) /\
    (get P d = Some fail_glyph <-> ~ exists u w, content = u ++ P ++ w).
Proof.
  intros HP Hf Hs Hin. exists (written E content patterns []).
  split; [now apply check_file|].
  rewrite (written_get E content patterns [] P Hin).
  pose proof (parse_plain P HP) as Hp.
  rewrite (found_returns _ _ _ (re_search_parsed E _ content Hp)).
  assert (Re.search (Re.seq_regex (map Re.Lit P)) content = true
          <-> exists u w, content = u ++ P ++ w) as Hiff.
  { rewrite ReFacts.search_spec. split.
    - intros (u & v & w & -> & Hv). apply ReFacts.lang_seq_lits in Hv.
      subst v. eauto.
    - intros (u & w & ->). exists u, P, w. split; trivial.
      now apply ReFacts.lang_seq_lits. }
  rewrite <- Hiff.
  destruct (Re.search (Re.seq_regex (map Re.Lit P)) content); simpl; split;
    split; trivial; try discriminate; try congruence.
Qed.

Lemma plain_pattern_is_substring_test_witness :
  exists d, check fragment_engine sample_fs (str "nginx.conf") nginx_patterns
            = Returns d /\
    (get (str "listen 443 ssl") d = Some pass_glyph
     <-> exists u w, sample_nginx = u ++ str "listen 443 ssl" ++ w) /\
    (get (str "listen 443 ssl") d = Some fail_glyph
     <-> ~ exists u w, sample_nginx = u ++ str "listen 443 ssl" ++ w).
Proof.
  apply (@plain_pattern_is_substring_test fragment_engine sample_fs
           (str "nginx.conf") sample_nginx nginx_patterns
           (str "listen 443 ssl")).
  - reflexivity.
  - reflexivity.
  - intros p Hp. apply compiles_searchable.
    destruct Hp as [<-|[<-|[<-|[]]]]; reflexivity.
  - simpl. tauto.
Defined.

(** X4. A pattern of the fragment (one that parses: no anchor, class or
    group extension) whose language has the empty string records pass on
    every file that is read, and on an empty file these are the only
    patterns of the fragment that pass. *)
Theorem empty_match_and_empty_file E fs file content p r :
  Re.parse p = Re.Parsed r ->
  fs file = File content ->
  exists d, check E fs file [p] = Returns d /\
    (Re.lang r [] -> get p d = Some pass_glyph) /\
    (content = [] -> (get p d = Some pass_glyph <-> Re.lang r [])).
Proof.
  intros Hp Hf. exists [(p, glyph (Re.search r content))].
  split.
  - unfold check. rewrite Hf. cbn [comprehension].
    now rewrite (re_search_parsed E _ content Hp).
  - cbn [get]. rewrite text_eqb_refl. split.
    + intros Hnull. apply ReFacts.nullable_lang in Hnull.
      destruct content; simpl; now rewrite Hnull.
    + intros ->. rewrite <- ReFacts.nullable_lang. simpl.
      rewrite !orb_false_r.
      destruct (Re.nullable r); simpl; split; trivial; discriminate.
Qed.

Lemma empty_match_and_empty_file_witness :
  exists d, check fragment_engine
              (fs_of [(str "empty.conf", File [])]) (str "empty.conf")
              [str "(certbot)?"] = Returns d /\
    (Re.lang (Re.Cat (Re.Alt (Re.seq_regex (map Re.Lit (str "certbot")))
                        Re.Eps) Re.Eps) [] ->
     get (str "(certbot)?") d = Some pass_glyph) /\
    (@nil char = [] ->
     (get (str "(certbot)?") d = Some pass_glyph
      <-> Re.lang (Re.Cat (Re.Alt (Re.seq_regex (map Re.Lit (str "certbot")))
                             Re.Eps) Re.Eps) [])).
Proof.
  apply (@empty_match_and_empty_file fragment_engine
           (fs_of [(str "empty.conf", File [])]) (str "empty.conf") []
           (str "(certbot)?")); reflexivity.
Defined.

(** X5. Adding text before or after the content of a file never turns a
    pass into a fail: a pattern of the fragment that passes on a content
    passes on every content that contains it. *)
Theorem pass_survives_added_text E fs1 fs2 file content u w patterns p d1 :
  forallb Re.compiles patterns = true ->
  fs1 file = File content ->
  fs2 file = File (u ++ content ++ w) ->
  In p patterns ->
  check E fs1 file patterns = Returns d1 ->
  get p d1 = Some pass_glyph ->
  exists d2, check E fs2 file patterns = Returns d2 /\
             get p d2 = Some pass_glyph.
Proof.
  intros Hcomp Hf1 Hf2 Hin Hc1 Hget.
  rewrite forallb_forall in Hcomp.
  assert (forall c q, In q patterns -> searchable E c q) as Hs
    by (intros c q Hq; apply compiles_searchable; now apply Hcomp).
  rewrite (@check_file E fs1 file content patterns Hf1 (Hs content)) in Hc1.
  injection Hc1 as <-. rewrite written_get in Hget by assumption.
  exists (written E (u ++ content ++ w) patterns []).
  split; [apply check_file; auto|].
  rewrite written_get by assumption.
  pose proof (Hcomp p Hin) as Hp. unfold Re.compiles in Hp.
  destruct (Re.parse p) as [r| |] eqn:Hparse; try discriminate.
  rewrite (found_returns _ _ _ (re_search_parsed E _ content Hparse)) in Hget.
  rewrite (found_returns _ _ _ (re_search_parsed E _ (u ++ content ++ w) Hparse)).
  destruct (Re.search r content) eqn:Hsearch; [|discriminate Hget].
  now rewrite (search_grows r content u w Hsearch).
Qed.

Lemma pass_survives_added_text_witness :
  exists d2, check fragment_engine grown_fs (str "nginx.conf") nginx_patterns
             = Returns d2 /\
             get (str "certbot") d2 = Some pass_glyph.
Proof.
  apply (@pass_survives_added_text fragment_engine sample_fs grown_fs
           (str "nginx.conf") sample_nginx
           (str "# managed" ++ [Re.newline]) ([Re.newline] ++ str "# end")
           nginx_patterns (str "certbot")
           [ (str "listen 443 ssl", pass_glyph); (str "certbot", pass_glyph);
             (str "proxy_pass http://app:3000", pass_glyph) ]).
  - reflexivity.
  - reflexivity.
  - reflexivity.
  - simpl. tauto.
  - reflexivity.
  - reflexivity.
Defined.

(** X6. Let [A] and [B] be patterns that compile in the fragment.  A
    pattern that starts with a quantifier, or is [A] followed by a closing
    parenthesis and anything, or is [A] followed by one more backslash, or
    is [A] followed by an opening parenthesis and [B] ([B] not starting
    with a question mark) makes [check] raise as soon as the file is read,
    wherever the pattern stands in the list; when the file is missing the
    same list raises nothing. *)
Theorem check_raises_on_malformed_pattern E fs file patterns p :
  malformed p -> In p patterns ->
  (forall content, fs file = File content ->
     exists e, check E fs file patterns = Raises e) /\
  (fs file = Missing ->
     check E fs file patterns = Returns [(file, file_missing)]).
Proof.
  intros Hbad Hin. split.
  - intros content Hf. unfold check. rewrite Hf.
    eapply comprehension_raises; [exact Hin|].
    apply re_search_error. now apply parse_malformed.
  - apply check_missing.
Qed.

Lemma check_raises_on_malformed_pattern_witness :
  (forall content, sample_fs (str "nginx.conf") = File content ->
     exists e, check fragment_engine sample_fs (str "nginx.conf")
                 [str "certbot"; str "listen (80|443"] = Raises e) /\
  (sample_fs (str "nginx.conf") = Missing ->
     check fragment_engine sample_fs (str "nginx.conf")
       [str "certbot"; str "listen (80|443"]
     = Returns [(str "nginx.conf", file_missing)]).
Proof.
  apply (@check_raises_on_malformed_pattern fragment_engine sample_fs
           (str "nginx.conf") [str "certbot"; str "listen (80|443"]
           (str "listen (80|443")).
  - apply (@M_open (str "listen ") (str "80|443")); try reflexivity.
    intros B' H. discriminate H.
  - simpl. tauto.
Defined.

(** ** Merging *)

(** X7. Merging is idempotent: a statement repeated right after itself
    leaves [results], keys, order and statuses, as the first one made
    them, and raises exactly when the first one does. *)
Theorem repeated_entry_changes_nothing E fs e rest acc :
  run_manifest E fs (e :: e :: rest) acc = run_manifest E fs (e :: rest) acc.
Proof.
  cbn [run_manifest]. unfold update_check.
  destruct (check E fs (fst e) (snd e)) as [r|x] eqn:Hc; cbn [bind]; trivial.
  now rewrite update_idempotent by (eapply check_NoDup; exact Hc).
Qed.

(** X8. A key never moves and never disappears: the keys of [results]
    after the first statements are a prefix of the keys of the final
    report, so a later entry can change the status on a line but not its
    place. *)
Theorem report_keys_keep_their_place E fs pre post d1 d :
  run_manifest E fs pre [] = Returns d1 ->
  run_manifest E fs (pre ++ post) [] = Returns d ->
  exists tail, keys d = keys d1 ++ tail.
Proof.
  intros H1 H. rewrite run_manifest_app, H1 in H. cbn [bind] in H.
  eapply run_manifest_keys_prefix. exact H.
Qed.

Lemma report_keys_keep_their_place_witness :
  exists tail,
    keys [(str "certbot", fail_glyph); (str "b.conf", file_missing)]
    = keys [(str "certbot", pass_glyph)] ++ tail.
Proof.
  apply (@report_keys_keep_their_place fragment_engine
           (fs_of [(str "a.conf", File (str "image: certbot/certbot"));
                   (str "c.conf", File (str "image: nginx"))])
           [shared_first]
           [(str "c.conf", [str "certbot"]); (str "b.conf", [str "nginx"])]);
    reflexivity.
Defined.

(** X9. The keys of the report are exactly the keys the statements wrote:
    a key is in the final dict if and only if the dict returned by [check]
    for some entry has it. *)
Theorem report_keys_are_the_keys_written E fs entries d k :
  run_manifest E fs entries [] = Returns d ->
  (In k (keys d) <->
   exists e r, In e entries /\ check E fs (fst e) (snd e) = Returns r
               /\ In k (keys r)).
Proof.
  intros Hrun. rewrite (run_manifest_keys _ _ _ _ k Hrun). simpl. tauto.
Qed.

Lemma report_keys_are_the_keys_written_witness :
  In (str "certbot") (keys [(str "certbot", fail_glyph)]) <->
  exists e r, In e [shared_first; shared_second] /\
              check fragment_engine shared_fs (fst e) (snd e) = Returns r /\
              In (str "certbot") (keys r).
Proof.
  apply (@report_keys_are_the_keys_written fragment_engine shared_fs
           [shared_first; shared_second]).
  reflexivity.
Defined.




(** ** The printed lines *)

(** X11. A printed line determines its item: two items whose statuses are
    among the three the script writes and that print the same line have
    the same key and the same status, so the report can be read back. *)
Theorem printed_line_determines_item k1 v1 k2 v2 :
  is_status v1 -> is_status v2 ->
  format_line (k1, v1) = format_line (k2, v2) ->
  k1 = k2 /\ v1 = v2.
Proof.
  intros H1 H2 Heq. unfold format_line in Heq. cbn [fst snd] in Heq.
  apply (f_equal (@rev char)) in Heq. rewrite !rev_app_distr in Heq.
  assert (forall a b : text, rev a = rev b -> a = b) as rev_inj
    by (intros a b H; rewrite <- (rev_involutive a), <- (rev_involutive b);
        now rewrite H).
  destruct H1 as [-> | [-> | ->]]; destruct H2 as [-> | [-> | ->]];
    vm_compute in Heq; try discriminate Heq;
    (split; [|reflexivity]); apply rev_inj;
    injection Heq; trivial.
Qed.

Lemma printed_line_determines_item_witness :
  str "certbot" = str "certbot" /\ pass_glyph = pass_glyph.
Proof.
  apply (@printed_line_determines_item (str "certbot") pass_glyph
           (str "certbot") pass_glyph).
  - left. reflexivity.
  - left. reflexivity.
  - reflexivity.
Defined.

(** ** The dot and the backslash *)

Lemma close_push_lits A x B :
  Re.close (Re.push_lits B (Re.push x (Re.push_lits A Re.empty_frame)))
  = Re.seq_regex (map Re.Lit A ++ [x] ++ map Re.Lit B).
Proof.
  unfold Re.close, Re.close_branch.
  rewrite ReFacts.push_lits_branches. cbn [Re.branches Re.push].
  rewrite ReFacts.push_lits_branches. cbn [Re.branches Re.empty_frame].
  rewrite ReFacts.push_lits_items. cbn [Re.items Re.push].
  rewrite ReFacts.push_lits_items. cbn [Re.items Re.empty_frame].
  rewrite app_nil_r, rev_app_distr, rev_involutive.
  change (rev (x :: rev (map Re.Lit A)))
    with (rev (rev (map Re.Lit A)) ++ [x]).
  now rewrite rev_involutive, <- app_assoc.
Qed.

Lemma parse_dot A B :
  forallb Re.plain A = true -> forallb Re.plain B = true ->
  Re.parse (A ++ str "." ++ B)
  = Re.Parsed (Re.seq_regex (map Re.Lit A ++ [Re.Dot] ++ map Re.Lit B)).
Proof.
  intros HA HB. unfold Re.parse. rewrite ReFacts.parse_go_plain by assumption.
  change (str "." ++ B) with (46 :: B). cbn [Re.parse_go].
  change (Re.classify 46) with Re.TDot. cbv iota.
  rewrite <- (app_nil_r B) at 1. rewrite ReFacts.parse_go_plain by assumption.
  cbn [Re.parse_go]. f_equal. apply close_push_lits.
Qed.

Lemma parse_escaped A d B :
  forallb Re.plain A = true -> forallb Re.plain B = true ->
  Re.is_ascii_alnum d = false ->
  Re.parse (A ++ 92 :: d :: B)
  = Re.Parsed (Re.seq_regex (map Re.Lit (A ++ [d] ++ B))).
Proof.
  intros HA HB Hd. unfold Re.parse.
  rewrite ReFacts.parse_go_plain by assumption. cbn [Re.parse_go].
  change (Re.classify 92) with Re.TBackslash. cbv iota. rewrite Hd.
  rewrite <- (app_nil_r B) at 1. rewrite ReFacts.parse_go_plain by assumption.
  cbn [Re.parse_go]. f_equal. rewrite close_push_lits.
  now rewrite !map_app.
Qed.

Lemma lang_dot A B w :
  Re.lang (Re.seq_regex (map Re.Lit A ++ [Re.Dot] ++ map Re.Lit B)) w <->
  exists c, c <> Re.newline /\ w = A ++ [c] ++ B.
Proof.
  rewrite ReFacts.lang_seq_app. split.
  - intros (u & v & -> & Hu & Hv). apply ReFacts.lang_seq_lits in Hu. subst u.
    apply ReFacts.lang_seq_app in Hv as (m & b & -> & Hm & Hb).
    apply ReFacts.lang_seq_lits in Hb. subst b.
    simpl in Hm. apply ReFacts.lang_cat_inv in Hm as (x & y & -> & Hx & Hy).
    inversion Hy; subst. inversion Hx as [| |c Hc| | | | |]; subst.
    exists c. split; trivial.
    intros ->. discriminate Hc.
  - intros (c & Hc & ->). exists A, ([c] ++ B). repeat split.
    + now apply ReFacts.lang_seq_lits.
    + apply ReFacts.lang_seq_app. exists [c], B. repeat split.
      * simpl. change [c] with ([c] ++ []).
        constructor; [|constructor]. constructor. unfold Re.dot_matches.
        destruct (N.eqb_spec c Re.newline); [contradiction | trivial].
      * now apply ReFacts.lang_seq_lits.
Qed.

(** X12. An unescaped dot in a pattern is a wildcard, not a full stop:
    [A.B] records pass exactly when [A], then any one character other than
    a newline, then [B] occur in a row.  The text with a real dot passes,
    and so does the text with any other character in its place. *)
Theorem dot_is_a_wildcard E fs file content A B :
  forallb Re.plain A = true -> forallb Re.plain B = true ->
  fs file = File content ->
  exists d, check E fs file [A ++ str "." ++ B] = Returns d /\
    (get (A ++ str "." ++ B) d = Some pass_glyph <->
     exists u c w, c <> Re.newline /\ content = u ++ A ++ [c] ++ B ++ w).
Proof.
  intros HA HB Hf. pose proof (parse_dot A B HA HB) as Hp.
  set (r := Re.seq_regex (map Re.Lit A ++ [Re.Dot] ++ map Re.Lit B)) in *.
  exists [(A ++ str "." ++ B, glyph (Re.search r content))]. split.
  - unfold check. rewrite Hf. cbn [comprehension].
    now rewrite (re_search_parsed E _ content Hp).
  - cbn [get]. rewrite text_eqb_refl.
    assert (Re.search r content = true <->
            exists u c w, c <> Re.newline /\ content = u ++ A ++ [c] ++ B ++ w)
      as Hiff.
    { rewrite ReFacts.search_spec. split.
      - intros (u & v & w & -> & Hv). apply lang_dot in Hv as (c & Hc & ->).
        exists u, c, w. split; trivial. now rewrite <- !app_assoc.
      - intros (u & c & w & Hc & ->). exists u, (A ++ [c] ++ B), w.
        split; [now rewrite <- !app_assoc|]. apply lang_dot. eauto. }
    rewrite <- Hiff.
    destruct (Re.search r content); simpl; split; trivial; discriminate.
Qed.

Lemma dot_is_a_wildcard_witness :
  exists d, check fragment_engine
              (fs_of [(str "c.yml", File (str "db: mcp_config_db"))])
              (str "c.yml") [str "mcp_config" ++ str "." ++ str "db"]
            = Returns d /\
    (get (str "mcp_config" ++ str "." ++ str "db") d = Some pass_glyph <->
     exists u c w, c <> Re.newline /\
       str "db: mcp_config_db"
       = u ++ str "mcp_config" ++ [c] ++ str "db" ++ w).
Proof.
  apply (@dot_is_a_wildcard fragment_engine
           (fs_of [(str "c.yml", File (str "db: mcp_config_db"))])
           (str "c.yml") (str "db: mcp_config_db")
           (str "mcp_config") (str "db")); reflexivity.
Defined.

(** X13. A backslash before a character that is not an ASCII letter or
    digit makes it ordinary: [A\dB] is the substring test for [A], then
    [d] itself, then [B]; an escaped dot matches a full stop only. *)
Theorem escaped_character_is_literal E fs file content A d B :
  forallb Re.plain A = true -> forallb Re.plain B = true ->
  Re.is_ascii_alnum d = false ->
  fs file = File content ->
  exists r, check E fs file [A ++ 92 :: d :: B] = Returns r /\
    (get (A ++ 92 :: d :: B) r = Some pass_glyph <->
     exists u w, content = u ++ (A ++ [d] ++ B) ++ w).
Proof.
  intros HA HB Hd Hf. pose proof (parse_escaped A d B HA HB Hd) as Hp.
  set (x := Re.seq_regex (map Re.Lit (A ++ [d] ++ B))) in *.
  exists [(A ++ 92 :: d :: B, glyph (Re.search x content))]. split.
  - unfold check. rewrite Hf. cbn [comprehension].
    now rewrite (re_search_parsed E _ content Hp).
  - cbn [get]. rewrite text_eqb_refl.
    assert (Re.search x content = true <->
            exists u w, content = u ++ (A ++ [d] ++ B) ++ w) as Hiff.
    { rewrite ReFacts.search_spec. split.
      - intros (u & v & w & -> & Hv). apply ReFacts.lang_seq_lits in Hv.
        subst v. eauto.
      - intros (u & w & ->). exists u, (A ++ [d] ++ B), w. split; trivial.
        now apply ReFacts.lang_seq_lits. }
    rewrite <- Hiff.
    destruct (Re.search x content); simpl; split; trivial; discriminate.
Qed.

Lemma escaped_character_is_literal_witness :
  exists r, check fragment_engine
              (fs_of [(str "c.yml", File (str "db: mcp_config_db"))])
              (str "c.yml") [str "mcp_config" ++ 92 :: 46 :: str "db"]
            = Returns r /\
    (get (str "mcp_config" ++ 92 :: 46 :: str "db") r = Some pass_glyph <->
     exists u w, str "db: mcp_config_db"
                 = u ++ (str "mcp_config" ++ [46] ++ str "db") ++ w).
Proof.
  apply (@escaped_character_is_literal fragment_engine
           (fs_of [(str "c.yml", File (str "db: mcp_config_db"))])
           (str "c.yml") (str "db: mcp_config_db")
           (str "mcp_config") 46 (str "db")); reflexivity.
Defined.
